(** * Kernel ridge regression and classification (models.py)

    A shallow embedding of the three estimators of [models.py]:
    [KernelRidgeRegressor], [KernelRidgeClassifier] and
    [AugmentedHogsKernelRidgeClassifier].

    - numpy's [float64] entries are abstracted by a carrier [R] with the
      operations the code applies to them ([Scalar]); the laws a proof
      needs are stated where it needs them, so that every theorem says
      which arithmetic facts it rests on;
    - a Python exception is a [Raise] result; [self] is threaded through
      a state monad that keeps the object as it was left when an
      exception is raised;
    - every call to a collaborator (kernel, solver, feature extractor,
      augmentation, label binarizer) is recorded in a trace. *)

From Stdlib Require Import ZArith QArith Qcanon.
From stdpp Require Import base gmap strings list sorting.

Local Open Scope Z_scope.

(** ** Exceptions *)

Inductive error : Type :=
| KeyError        (* kernels[name] with an unknown name *)
| IndexError      (* Y[:, c] with c out of bounds *)
| AttributeError  (* None.similarity *)
| TypeError       (* iteration over None, None * float *)
| ValueError      (* shapes not aligned, argmax of an empty sequence *)
| LinAlgError.    (* scipy.linalg.solve on a matrix that is not positive definite *)

Inductive result (A : Type) : Type :=
| Ok (a : A)
| Raise (e : error).
Arguments Ok {A} a.
Arguments Raise {A} e.

Definition is_ok {A} (r : result A) : bool :=
  match r with Ok _ => true | Raise _ => false end.

(** ** Scalars and dense arrays *)

Class Scalar (R : Type) : Type := {
  zero : R;
  one : R;
  add : R → R → R;
  mul : R → R → R;
  opp : R → R;
  ltb : R → R → bool;      (* a < b *)
  of_nat : nat → R         (* int -> float conversion, used for len(X) *)
}.

(** 1-D and 2-D arrays; a matrix is the list of its rows. *)
Abbreviation vector R := (list R) (only parsing).
Abbreviation matrix R := (list (list R)) (only parsing).

Section Arrays.
Context {R : Type} `{!Scalar R}.

(** [np.dot] on two 1-D arrays of the same length (exact arithmetic). *)
Definition dot (a b : vector R) : R :=
  foldl (λ acc xy, add acc (mul xy.1 xy.2)) zero (zip a b).

Definition np_dot (a b : vector R) : result R :=
  if decide (length a = length b) then Ok (dot a b) else Raise ValueError.

Definition mat_vec (A : matrix R) (x : vector R) : vector R :=
  map (λ row, dot row x) A.

(** The scores of a sample with similarity vector [s]: one dot product
    per coefficient vector. *)
Definition class_scores (alphas : list (vector R)) (s : vector R) : list R :=
  map (λ a, dot a s) alphas.

(** [diag = np.zeros_like(K); np.fill_diagonal(diag, v)]. *)
Definition diag_entry (v : R) (i j : nat) : R :=
  if decide (i = j) then v else zero.

(** [K += diag], entry by entry. *)
Definition add_diag (v : R) (K : matrix R) : matrix R :=
  imap (λ i row, imap (λ j x, add x (diag_entry v i j)) row) K.

(** [A[i][j]], when in range. *)
Definition entry (A : matrix R) (i j : nat) : option R :=
  A !! i ≫= (.!! j).

(** [np.argmax] on a 1-D sequence: the first index holding the maximum;
    [ValueError] on an empty sequence. *)
Fixpoint argmax_from (best : R) (besti i : nat) (l : list R) : nat :=
  match l with
  | [] => besti
  | x :: l' =>
      if ltb best x then argmax_from x i (S i) l'
      else argmax_from best besti (S i) l'
  end.

Definition np_argmax (l : list R) : result nat :=
  match l with
  | [] => Raise ValueError
  | x :: l' => Ok (argmax_from x 0%nat 1%nat l')
  end.

(** [p] is the first position of [l] that holds its maximum. *)
Definition is_first_max (l : list R) (p : nat) : Prop :=
  ∃ m, l !! p = Some m
       ∧ (∀ j y, l !! j = Some y → ltb m y = false)
       ∧ (∀ j y, (j < p)%nat → l !! j = Some y → ltb y m = true).
End Arrays.

(** The comparison is a strict weak order: what a proof about the
    maximum needs (a NaN-free [float64] comparison satisfies it). *)
Class OrderLaws (R : Type) `{!Scalar R} : Prop := {
  ltb_irrefl : ∀ a : R, ltb a a = false;
  ltb_trans : ∀ a b c : R, ltb a b = true → ltb b c = true → ltb a c = true;
  ltb_cotrans : ∀ a b c : R, ltb a c = true → ltb a b = true ∨ ltb b c = true
}.

(** ** Labels, [sorted(set(y))], column selection and the label binarizer *)

(** Class labels are Python integers: the code uses them as column
    indices ([Y[:, c]]). *)
Definition label : Type := Z.

(** [sorted(set(y))]. *)
Definition sorted_set (y : list label) : list label :=
  merge_sort Z.le (remove_dups y).

(** numpy's resolution of an integer index on an axis of size [n]:
    negative indices count from the end, anything outside [-n, n) raises. *)
Definition np_index (n : nat) (c : Z) : result nat :=
  if decide (0 ≤ c < Z.of_nat n) then Ok (Z.to_nat c)
  else if decide (- Z.of_nat n ≤ c < 0) then Ok (Z.to_nat (c + Z.of_nat n))
  else Raise IndexError.

Section Columns.
Context {R : Type} `{!Scalar R}.

(** [Y.shape[1]] of a 2-D array with at least one row. *)
Definition ncols (Y : matrix R) : nat :=
  match Y with [] => 0%nat | row :: _ => length row end.

(** [Y[:, c]]. *)
Definition column (Y : matrix R) (c : Z) : result (vector R) :=
  match np_index (ncols Y) c with
  | Ok j => Ok (map (λ row, default zero (row !! j)) Y)
  | Raise e => Raise e
  end.

Definition pos_label : R := one.
Definition neg_label : R := opp one.

(** The one-vs-all target of class [c]: +1 where the label is [c],
    -1 elsewhere. *)
Definition one_vs_all (y : list label) (c : label) : vector R :=
  map (λ l, if decide (l = c) then pos_label else neg_label) y.

(** [LabelBinarizer(pos_label=1, neg_label=-1).fit_transform(y)]
    (scikit-learn).  The classes are the sorted distinct labels.  An
    empty [y] is rejected.  With three classes or more the result has
    one one-vs-all column per class.  A binary problem is encoded in
    ONE column, the indicator of the greater class; a single class
    gives one column filled with the negative label. *)
Definition fit_transform (y : list label) : result (matrix R) :=
  match y with
  | [] => Raise ValueError
  | _ =>
      match sorted_set y with
      | [_] => Ok (map (λ _, [neg_label]) y)
      | [_; c1] => Ok (map (λ l, [if decide (l = c1) then pos_label else neg_label]) y)
      | classes =>
          Ok (map (λ l, map (λ c, if decide (l = c) then pos_label else neg_label) classes) y)
      end
  end.
End Columns.

(** ** Collaborators *)

(** A kernel object: built from the training set and the scale
    parameter, it answers [similarity_matrix()] and [similarity(x)]. *)
Record Kernel (R Sample : Type) : Type := {
  similarity_matrix : matrix R;
  similarity : Sample → vector R
}.
Arguments similarity_matrix {R Sample} k.
Arguments similarity {R Sample} k x.

(** What [models.py] imports: the registry [kernels] (kernels.py), the
    feature extractor and the augmentation (utils.py), and
    [scipy.linalg.solve(A, b, assume_a='pos')].  The kernel's two
    methods and the feature extractor are taken to be pure;
    [augment_dataset] stands for the outcome of the augmentation under
    the random state of the call. *)
Class Externals (R : Type) : Type := {
  Sample : Type;
  Image : Type;
  kernels : gmap string (list Sample → R → Kernel R Sample);
  solve : matrix R → vector R → result (vector R);
  HOGExtractor : Type;
  HOGExtractor_init : HOGExtractor;
  transform : HOGExtractor → list Image → list Sample;
  augment_dataset :
    list Image → list label → R → Z → R → R → list Image * list label
}.

(** ** The trace of collaborator calls, and the monad of methods *)

Inductive event : Type :=
| CallAugment
| CallTransform
| CallBinarizer
| CallKernel (name : string)
| CallSimilarityMatrix
| CallSolve
| CallSimilarity.

(** The calls of the kernel ridge pipeline proper: neither the
    augmentation nor the feature extraction. *)
Definition pipeline_call (e : event) : Prop :=
  e ≠ CallAugment ∧ e ≠ CallTransform.

Record world (Obj : Type) : Type := World { self : Obj; trace : list event }.
Arguments World {Obj} self trace.
Arguments self {Obj} w.
Arguments trace {Obj} w.

(** A method body: it runs on [self] and the trace so far, and either
    returns or raises, in both cases leaving [self] as mutated so far. *)
Definition M (Obj A : Type) : Type := world Obj → result A * world Obj.

Section Monad.
Context {Obj : Type}.

Definition ret {A} (a : A) : M Obj A := λ w, (Ok a, w).
Definition raise {A} (e : error) : M Obj A := λ w, (Raise e, w).
Definition bind {A B} (m : M Obj A) (f : A → M Obj B) : M Obj B :=
  λ w, match m w with
       | (Ok a, w') => f a w'
       | (Raise e, w') => (Raise e, w')
       end.
Definition lift {A} (r : result A) : M Obj A := λ w, (r, w).
Definition read {A} (field : Obj → A) : M Obj A := λ w, (Ok (field (self w)), w).
Definition assign (f : Obj → Obj) : M Obj unit :=
  λ w, (Ok tt, World (f (self w)) (trace w)).
Definition call (e : event) : M Obj unit :=
  λ w, (Ok tt, World (self w) (trace w ++ [e])).
(** [obj.attr] where [obj] may be [None]. *)
Definition attr_of {A} (o : option A) (e : error) : M Obj A :=
  match o with Some a => ret a | None => raise e end.

(** [m] never changes the part [f] of [self], whether it returns or raises. *)
Definition keeps {A B} (f : Obj → B) (m : M Obj A) : Prop :=
  ∀ w, f (self (m w).2) = f (self w).

(** Every collaborator call [m] makes satisfies [P]. *)
Definition emits {A} (P : event → Prop) (m : M Obj A) : Prop :=
  ∀ w, ∃ l, trace (m w).2 = trace w ++ l ∧ Forall P l.
End Monad.

Global Instance M_ret {Obj} : MRet (M Obj) := @ret Obj.
Global Instance M_bind {Obj} : MBind (M Obj) := λ A B f m, bind m f.

(** ** KernelRidgeRegressor *)

Module KernelRidgeRegressor.
Section Methods.
Context {R : Type} `{!Scalar R} `{!Externals R}.

Record t : Type := {
  C : R;
  kernel : string;
  gamma : R;
  K : option (Kernel R Sample);
  alpha : option (vector R)
}.

Definition set_K (k : Kernel R Sample) (s : t) : t :=
  {| C := C s; kernel := kernel s; gamma := gamma s; K := Some k; alpha := alpha s |}.
Definition set_alpha (a : vector R) (s : t) : t :=
  {| C := C s; kernel := kernel s; gamma := gamma s; K := K s; alpha := Some a |}.

Definition __init__ (C0 : R) (kernel0 : string) (gamma0 : R) : result t :=
  Ok {| C := C0; kernel := kernel0; gamma := gamma0; K := None; alpha := None |}.

(** The hyperparameters. *)
Definition config (s : t) : R * string * R := (C s, kernel s, gamma s).

Definition fit (X : list Sample) (y : vector R) : M t unit :=
  (* self.K = kernels[self.kernel](X, self.gamma) *)
  name ← read kernel;
  ctor ← attr_of (kernels !! name) KeyError;
  g ← read gamma;
  call (CallKernel name);;
  assign (set_K (ctor X g));;
  (* K = self.K.similarity_matrix() *)
  k ← read K;
  k ← attr_of k AttributeError;
  call CallSimilarityMatrix;;
  let Kmat := similarity_matrix k in
  (* diag = zeros_like(K); fill_diagonal(diag, self.C * len(X)); K += diag *)
  c ← read C;
  let Kmat := add_diag (mul c (of_nat (length X))) Kmat in
  (* self.alpha = solve(K, y, assume_a='pos') *)
  call CallSolve;;
  a ← lift (solve Kmat y);
  assign (set_alpha a).

Fixpoint predict_loop (X : list Sample) (preds : list R) : M t (list R) :=
  match X with
  | [] => mret preds
  | x :: X' =>
      (* similarity = self.K.similarity(x) *)
      k ← read K;
      k ← attr_of k AttributeError;
      call CallSimilarity;;
      let s := similarity k x in
      (* preds.append(np.dot(self.alpha, similarity)) *)
      a ← read alpha;
      a ← attr_of a TypeError;
      p ← lift (np_dot a s);
      predict_loop X' (preds ++ [p])
  end.

Definition predict (X : list Sample) : M t (list R) := predict_loop X [].
End Methods.
Arguments t R {_}.
End KernelRidgeRegressor.

(** ** KernelRidgeClassifier *)

Module KernelRidgeClassifier.
Section Methods.
Context {R : Type} `{!Scalar R} `{!Externals R}.

Record t : Type := {
  C : R;
  kernel : string;
  gamma : R;
  K : option (Kernel R Sample);
  alpha : option (list (vector R))
}.

Definition set_K (k : Kernel R Sample) (s : t) : t :=
  {| C := C s; kernel := kernel s; gamma := gamma s; K := Some k; alpha := alpha s |}.
Definition set_alpha (a : list (vector R)) (s : t) : t :=
  {| C := C s; kernel := kernel s; gamma := gamma s; K := K s; alpha := Some a |}.

Definition __init__ (C0 : R) (kernel0 : string) (gamma0 : R) : result t :=
  Ok {| C := C0; kernel := kernel0; gamma := gamma0; K := None; alpha := None |}.

(** The hyperparameters. *)
Definition config (s : t) : R * string * R := (C s, kernel s, gamma s).

(** [for c in sorted(set(y)): self.alpha.append(solve(K, Y[:, c], assume_a='pos'))] *)
Fixpoint fit_loop (Kmat Y : matrix R) (classes : list label) : M t unit :=
  match classes with
  | [] => mret tt
  | c :: classes' =>
      acc ← read alpha;
      acc ← attr_of acc AttributeError;
      target ← lift (column Y c);
      call CallSolve;;
      a ← lift (solve Kmat target);
      assign (set_alpha (acc ++ [a]));;
      fit_loop Kmat Y classes'
  end.

Definition fit (X : list Sample) (y : list label) : M t unit :=
  (* Y = LabelBinarizer(pos_label=1, neg_label=-1).fit_transform(y) *)
  call CallBinarizer;;
  Y ← lift (fit_transform y);
  (* self.K = kernels[self.kernel](X, self.gamma) *)
  name ← read kernel;
  ctor ← attr_of (kernels !! name) KeyError;
  g ← read gamma;
  call (CallKernel name);;
  assign (set_K (ctor X g));;
  (* K = self.K.similarity_matrix() *)
  k ← read K;
  k ← attr_of k AttributeError;
  call CallSimilarityMatrix;;
  let Kmat := similarity_matrix k in
  (* diag = zeros_like(K); fill_diagonal(diag, self.C * len(X)); K += diag *)
  c ← read C;
  let Kmat := add_diag (mul c (of_nat (length X))) Kmat in
  (* self.alpha = []; the loop; self.alpha = np.array(self.alpha) *)
  assign (set_alpha []);;
  fit_loop Kmat Y (sorted_set y);;
  acc ← read alpha;
  acc ← attr_of acc AttributeError;
  assign (set_alpha acc).

(** [[np.dot(alpha, similarity) for alpha in self.alpha]] *)
Fixpoint scores (alphas : list (vector R)) (s : vector R) : result (list R) :=
  match alphas with
  | [] => Ok []
  | a :: alphas' =>
      match np_dot a s with
      | Ok d =>
          match scores alphas' s with
          | Ok ds => Ok (d :: ds)
          | Raise e => Raise e
          end
      | Raise e => Raise e
      end
  end.

Fixpoint predict_loop (X : list Sample) (preds : list nat) : M t (list nat) :=
  match X with
  | [] => mret preds
  | x :: X' =>
      (* similarity = self.K.similarity(x) *)
      k ← read K;
      k ← attr_of k AttributeError;
      call CallSimilarity;;
      let s := similarity k x in
      (* preds.append(np.argmax([np.dot(alpha, similarity) for alpha in self.alpha])) *)
      alphas ← read alpha;
      alphas ← attr_of alphas TypeError;
      ds ← lift (scores alphas s);
      p ← lift (np_argmax ds);
      predict_loop X' (preds ++ [p])
  end.

Definition predict (X : list Sample) : M t (list nat) := predict_loop X [].
End Methods.
Arguments t R {_}.
End KernelRidgeClassifier.

(** ** AugmentedHogsKernelRidgeClassifier *)

Module AugmentedHogsKernelRidgeClassifier.
Section Methods.
Context {R : Type} `{!Scalar R} `{!Externals R}.

Record t : Type := {
  C : R;
  kernel : string;
  gamma : R;
  flip_ratio : R;
  rot_replicas : Z;
  rot_ratio : R;
  rot_angle : R;
  hog_extractor : HOGExtractor;
  K : option (Kernel R Sample);
  alpha : option (list (vector R))
}.

Definition set_K (k : Kernel R Sample) (s : t) : t :=
  {| C := C s; kernel := kernel s; gamma := gamma s;
     flip_ratio := flip_ratio s; rot_replicas := rot_replicas s;
     rot_ratio := rot_ratio s; rot_angle := rot_angle s;
     hog_extractor := hog_extractor s; K := Some k; alpha := alpha s |}.
Definition set_alpha (a : list (vector R)) (s : t) : t :=
  {| C := C s; kernel := kernel s; gamma := gamma s;
     flip_ratio := flip_ratio s; rot_replicas := rot_replicas s;
     rot_ratio := rot_ratio s; rot_angle := rot_angle s;
     hog_extractor := hog_extractor s; K := K s; alpha := Some a |}.

Definition __init__ (C0 : R) (kernel0 : string) (gamma0 : R)
    (flip_ratio0 : R) (rot_replicas0 : Z) (rot_ratio0 rot_angle0 : R) : result t :=
  Ok {| C := C0; kernel := kernel0; gamma := gamma0;
        flip_ratio := flip_ratio0; rot_replicas := rot_replicas0;
        rot_ratio := rot_ratio0; rot_angle := rot_angle0;
        hog_extractor := HOGExtractor_init; K := None; alpha := None |}.

(** The hyperparameters. *)
Definition config (s : t) : R * string * R * R * Z * R * R :=
  (C s, kernel s, gamma s, flip_ratio s, rot_replicas s, rot_ratio s, rot_angle s).

Fixpoint fit_loop (Kmat Y : matrix R) (classes : list label) : M t unit :=
  match classes with
  | [] => mret tt
  | c :: classes' =>
      acc ← read alpha;
      acc ← attr_of acc AttributeError;
      target ← lift (column Y c);
      call CallSolve;;
      a ← lift (solve Kmat target);
      assign (set_alpha (acc ++ [a]));;
      fit_loop Kmat Y classes'
  end.

Definition fit (X : list Image) (y : list label) : M t unit :=
  (* X, y = augment_dataset(X, y, self.flip_ratio, self.rot_replicas,
                            self.rot_ratio, self.rot_angle) *)
  fr ← read flip_ratio;
  rn ← read rot_replicas;
  rr ← read rot_ratio;
  ra ← read rot_angle;
  call CallAugment;;
  let Xy := augment_dataset X y fr rn rr ra in
  let X := Xy.1 in
  let y := Xy.2 in
  (* X = self.hog_extractor.transform(X) *)
  h ← read hog_extractor;
  call CallTransform;;
  let X := transform h X in
  (* from here on, as KernelRidgeClassifier.fit *)
  call CallBinarizer;;
  Y ← lift (fit_transform y);
  name ← read kernel;
  ctor ← attr_of (kernels !! name) KeyError;
  g ← read gamma;
  call (CallKernel name);;
  assign (set_K (ctor X g));;
  k ← read K;
  k ← attr_of k AttributeError;
  call CallSimilarityMatrix;;
  let Kmat := similarity_matrix k in
  c ← read C;
  let Kmat := add_diag (mul c (of_nat (length X))) Kmat in
  assign (set_alpha []);;
  fit_loop Kmat Y (sorted_set y);;
  acc ← read alpha;
  acc ← attr_of acc AttributeError;
  assign (set_alpha acc).

Fixpoint predict_loop (X : list Sample) (preds : list nat) : M t (list nat) :=
  match X with
  | [] => mret preds
  | x :: X' =>
      k ← read K;
      k ← attr_of k AttributeError;
      call CallSimilarity;;
      let s := similarity k x in
      alphas ← read alpha;
      alphas ← attr_of alphas TypeError;
      ds ← lift (KernelRidgeClassifier.scores alphas s);
      p ← lift (np_argmax ds);
      predict_loop X' (preds ++ [p])
  end.

(** The plain classifier inside an augmented one: the hyperparameters
    and the model state the two classes have in common. *)
Definition plain (s : t) : KernelRidgeClassifier.t R :=
  {| KernelRidgeClassifier.C := C s;
     KernelRidgeClassifier.kernel := kernel s;
     KernelRidgeClassifier.gamma := gamma s;
     KernelRidgeClassifier.K := K s;
     KernelRidgeClassifier.alpha := alpha s |}.

(** [s] with the model state of the plain classifier [c]. *)
Definition with_model (s : t) (c : KernelRidgeClassifier.t R) : t :=
  {| C := C s; kernel := kernel s; gamma := gamma s;
     flip_ratio := flip_ratio s; rot_replicas := rot_replicas s;
     rot_ratio := rot_ratio s; rot_angle := rot_angle s;
     hog_extractor := hog_extractor s;
     K := KernelRidgeClassifier.K c; alpha := KernelRidgeClassifier.alpha c |}.

Definition predict (X : list Image) : M t (list nat) :=
  (* X = self.hog_extractor.transform(X) *)
  h ← read hog_extractor;
  call CallTransform;;
  let X := transform h X in
  predict_loop X [].
End Methods.
Arguments t R {_}.
End AugmentedHogsKernelRidgeClassifier.

(** ** A concrete environment over the rationals

    Exact rational scalars, a linear kernel on feature vectors, an
    elimination solver that refuses a non-positive pivot (as a Cholesky
    factorisation does) and checks its answer, a feature extractor that
    keeps the vector as it is and an augmentation that appends one copy
    of every sample.  It instantiates the theorems below and runs the
    code on explicit inputs. *)

Module Demo.
Local Open Scope Qc_scope.

Global Instance Qc_scalar : Scalar Qc := {
  zero := 0;
  one := 1;
  add := Qcplus;
  mul := Qcmult;
  opp := Qcopp;
  ltb := λ a b, bool_decide (a < b);
  of_nat := λ n, Q2Qc (inject_Z (Z.of_nat n))
}.

Definition linear (X : list (list Qc)) (g : Qc) : Kernel Qc (list Qc) := {|
  similarity_matrix := map (λ xi, map (λ xj, dot xi xj) X) X;
  similarity := λ x, map (λ xi, dot x xi) X
|}.

(** One elimination step on the rows below the pivot row [(p :: r1, b1)]. *)
Definition eliminate (p : Qc) (r1 : list Qc) (b1 : Qc)
    (rest : list (list Qc * Qc)) : list (list Qc * Qc) :=
  map (λ rb, match rb.1 with
             | [] => rb
             | a :: ri => (zip_with (λ x y, x - a / p * y) ri r1, rb.2 - a / p * b1)
             end) rest.

Fixpoint gauss (n : nat) (rows : list (list Qc * Qc)) : result (list Qc) :=
  match n, rows with
  | O, [] => Ok []
  | S n', (p :: r1, b1) :: rest =>
      if bool_decide (0 < p) then
        match gauss n' (eliminate p r1 b1 rest) with
        | Ok xs => Ok ((b1 - dot r1 xs) / p :: xs)
        | Raise e => Raise e
        end
      else Raise LinAlgError
  | _, _ => Raise ValueError
  end.

Definition solve_pos (A : matrix Qc) (b : vector Qc) : result (vector Qc) :=
  if decide (length A = length b) then
    match gauss (length A) (zip A b) with
    | Ok x => if decide (mat_vec A x = b) then Ok x else Raise LinAlgError
    | Raise e => Raise e
    end
  else Raise ValueError.

Global Instance externals : Externals Qc := {
  Sample := list Qc;
  Image := list Qc;
  kernels := {[ "linear" := linear ]};
  solve := solve_pos;
  HOGExtractor := unit;
  HOGExtractor_init := tt;
  transform := λ _ X, X;
  augment_dataset := λ X y _ _ _ _, (X ++ X, y ++ y)
}.

Definition q (n : Z) : Qc := Q2Qc (inject_Z n).

(** Three orthonormal samples; four points on a line. *)
Definition X3 : list (list Qc) :=
  [[q 1; q 0; q 0]; [q 0; q 1; q 0]; [q 0; q 0; q 1]].
Definition X4 : list (list Qc) := [[q 0]; [q 1]; [q 2]; [q 3]].

(** Estimators as their constructors leave them, with [C = 1]. *)
Definition regressor (name : string) : KernelRidgeRegressor.t Qc :=
  {| KernelRidgeRegressor.C := q 1; KernelRidgeRegressor.kernel := name;
     KernelRidgeRegressor.gamma := q 10; KernelRidgeRegressor.K := None;
     KernelRidgeRegressor.alpha := None |}.
Definition classifier (name : string) : KernelRidgeClassifier.t Qc :=
  {| KernelRidgeClassifier.C := q 1; KernelRidgeClassifier.kernel := name;
     KernelRidgeClassifier.gamma := q 10; KernelRidgeClassifier.K := None;
     KernelRidgeClassifier.alpha := None |}.
Definition augmented (name : string) : AugmentedHogsKernelRidgeClassifier.t Qc :=
  {| AugmentedHogsKernelRidgeClassifier.C := q 1;
     AugmentedHogsKernelRidgeClassifier.kernel := name;
     AugmentedHogsKernelRidgeClassifier.gamma := q 10;
     AugmentedHogsKernelRidgeClassifier.flip_ratio := q 0;
     AugmentedHogsKernelRidgeClassifier.rot_replicas := 1;
     AugmentedHogsKernelRidgeClassifier.rot_ratio := q 0;
     AugmentedHogsKernelRidgeClassifier.rot_angle := q 20;
     AugmentedHogsKernelRidgeClassifier.hog_extractor := tt;
     AugmentedHogsKernelRidgeClassifier.K := None;
     AugmentedHogsKernelRidgeClassifier.alpha := None |}.

(** The regularized matrix of [X3] under the linear kernel and [C = 1]. *)
Definition A3 : matrix Qc :=
  add_diag (mul (q 1) (of_nat 3)) (similarity_matrix (linear X3 (q 10))).

(** The regressor after [fit(X3, [4, 8, 12])], and the classifier
    and the augmented classifier after [fit(X3, [0, 1, 2])]. *)
Definition fitted_regressor : KernelRidgeRegressor.t Qc :=
  self (KernelRidgeRegressor.fit X3 [q 4; q 8; q 12] (World (regressor "linear") [])).2.
Definition fitted_classifier : KernelRidgeClassifier.t Qc :=
  self (KernelRidgeClassifier.fit X3 [0; 1; 2]%Z (World (classifier "linear") [])).2.
Definition fitted_augmented : AugmentedHogsKernelRidgeClassifier.t Qc :=
  self (AugmentedHogsKernelRidgeClassifier.fit X3 [0; 1; 2]%Z
          (World (augmented "linear") [])).2.
End Demo.

(** ** Further notions used by the properties of the whole pipeline *)

(** The laws of exact arithmetic that relate a prediction on a training
    sample to its target. *)
Class RingLaws (R : Type) `{!Scalar R} : Prop := {
  r_add_comm : ∀ a b : R, add a b = add b a;
  r_add_assoc : ∀ a b c : R, add a (add b c) = add (add a b) c;
  r_add_zero_r : ∀ a : R, add a zero = a;
  r_mul_comm : ∀ a b : R, mul a b = mul b a;
  r_mul_add_distr_r : ∀ a b c : R, mul (add a b) c = add (mul a c) (mul b c)
}.

Section Notions.
Context {R : Type} `{!Scalar R} `{!Externals R}.

Definition symmetric (K : matrix R) : Prop :=
  ∀ i j, entry K i j = entry K j i.

(** What a kernel object built on [X] answers: an N x N matrix whose
    [i]-th row is the similarity vector of the [i]-th training sample. *)
Definition kernel_consistent (X : list Sample) (k : Kernel R Sample) : Prop :=
  length (similarity_matrix k) = length X
  ∧ ∀ i x, X !! i = Some x →
           similarity_matrix k !! i = Some (similarity k x)
           ∧ length (similarity k x) = length X.

(** The estimator with its model state dropped, as the constructor
    would leave it with the same hyperparameters. *)
Definition regressor_reset (s : KernelRidgeRegressor.t R) : KernelRidgeRegressor.t R :=
  {| KernelRidgeRegressor.C := KernelRidgeRegressor.C s;
     KernelRidgeRegressor.kernel := KernelRidgeRegressor.kernel s;
     KernelRidgeRegressor.gamma := KernelRidgeRegressor.gamma s;
     KernelRidgeRegressor.K := None;
     KernelRidgeRegressor.alpha := None |}.

Definition classifier_reset (s : KernelRidgeClassifier.t R) : KernelRidgeClassifier.t R :=
  {| KernelRidgeClassifier.C := KernelRidgeClassifier.C s;
     KernelRidgeClassifier.kernel := KernelRidgeClassifier.kernel s;
     KernelRidgeClassifier.gamma := KernelRidgeClassifier.gamma s;
     KernelRidgeClassifier.K := None;
     KernelRidgeClassifier.alpha := None |}.

(** A classifier that holds a kernel holds a list of coefficient vectors. *)
Definition classifier_model_inv (s : KernelRidgeClassifier.t R) : Prop :=
  is_Some (KernelRidgeClassifier.K s) → is_Some (KernelRidgeClassifier.alpha s).
End Notions.

(** More explicit inputs over the rationals. *)
Module DemoExtra.
Import Demo.

(** The value of a returning computation. *)
Definition value_of {A} (r : result (list A)) : list A :=
  match r with Ok a => a | Raise _ => [] end.

(** A kernel object whose similarity vector is as long as the sample
    it is given. *)
Definition echo_kernel : Kernel Qc (list Qc) :=
  {| similarity_matrix := []; similarity := λ x, x |}.

Definition echo_regressor : KernelRidgeRegressor.t Qc :=
  {| KernelRidgeRegressor.C := q 1; KernelRidgeRegressor.kernel := "linear";
     KernelRidgeRegressor.gamma := q 10;
     KernelRidgeRegressor.K := Some echo_kernel;
     KernelRidgeRegressor.alpha := Some [q 1; q 2] |}.

(** The classifier after [fit(X3, [3, 4, 5])] has raised. *)
Definition half_fitted_classifier : KernelRidgeClassifier.t Qc :=
  self (KernelRidgeClassifier.fit X3 [3; 4; 5]%Z (World (classifier "linear") [])).2.
End DemoExtra.

(** * Properties *)

Ltac run_method :=
  unfold mbind, M_bind, bind, mret, M_ret, ret, read, assign, call, lift,
    attr_of, raise in *; simpl in *.

(** ** Arrays *)

Section ArrayFacts.
Context {R : Type} `{!Scalar R}.

Lemma entry_add_diag (v : R) (K : matrix R) (i j : nat) :
  entry (add_diag v K) i j = (λ x, add x (diag_entry v i j)) <$> entry K i j.
Proof.
  unfold entry, add_diag. rewrite list_lookup_imap.
  destruct (K !! i) as [row|]; simpl; [|done].
  by rewrite list_lookup_imap.
Qed.

Lemma np_dot_ok (a b : vector R) :
  length a = length b → np_dot a b = Ok (dot a b).
Proof. intros Hl. unfold np_dot. by rewrite decide_True. Qed.

Lemma np_dot_inv (a b : vector R) (d : R) :
  np_dot a b = Ok d → d = dot a b ∧ length a = length b.
Proof. unfold np_dot. case_decide; naive_solver. Qed.
End ArrayFacts.

(** ** KernelRidgeRegressor.fit: the regularized system *)

Section RegressorFit.
Context {R : Type} `{!Scalar R} `{!Externals R}.
Import KernelRidgeRegressor.

(** Adding zero changes nothing. *)
Hypothesis add_zero_r : ∀ x : R, add x zero = x.
(** The contract of the linear solver: what it returns solves the system. *)
Hypothesis solve_sound :
  ∀ (A : matrix R) (b x : vector R), solve A b = Ok x → mat_vec A x = b.

(** C1. [fit] builds the regularized system by adding [C * len(X)] to
    every diagonal entry of the kernel matrix and leaving every other
    entry as it is, hands that system and [y] to the solver, and
    stores the solver's answer as [alpha]: a solution of
    [(K + C*N*I) alpha = y]. After a returning [fit] the estimator's
    [alpha] is that answer and its [K] the kernel built from [X] and
    [gamma]. When the solver raises, [fit] raises the same error,
    [alpha] is as it was and [K] is the new kernel. *)
Theorem regressor_fit_regularized_solve
    (s : t R) (tr : list event) (X : list Sample) (y : vector R)
    (ctor : list Sample → R → Kernel R Sample) :
  kernels !! kernel s = Some ctor →
  let k := ctor X (gamma s) in
  let v := mul (C s) (of_nat (length X)) in
  let A := add_diag v (similarity_matrix k) in
  let tr' := tr ++ [CallKernel (kernel s); CallSimilarityMatrix; CallSolve] in
  (∀ i j, entry A i j =
          (λ x, if decide (i = j) then add x v else x) <$> entry (similarity_matrix k) i j)
  ∧ match solve A y with
    | Ok a =>
        fit X y (World s tr) = (Ok tt, World (set_alpha a (set_K k s)) tr')
        ∧ mat_vec A a = y
        ∧ alpha (self (fit X y (World s tr)).2) = Some a
        ∧ K (self (fit X y (World s tr)).2) = Some k
    | Raise e =>
        fit X y (World s tr) = (Raise e, World (set_K k s) tr')
        ∧ alpha (self (fit X y (World s tr)).2) = alpha s
        ∧ K (self (fit X y (World s tr)).2) = Some k
    end.
Proof.
  intros Hreg k v A tr'. split.
  - intros i j. subst A. rewrite entry_add_diag.
    destruct (entry (similarity_matrix k) i j) as [x|]; simpl; [|done].
    unfold diag_entry. case_decide; [done|]. by rewrite add_zero_r.
  - assert (Hrun : fit X y (World s tr)
                   = match solve A y with
                     | Ok a => (Ok tt, World (set_alpha a (set_K k s)) tr')
                     | Raise e => (Raise e, World (set_K k s) tr')
                     end).
    { unfold fit. run_method. rewrite Hreg. simpl.
      fold k. fold v. fold A.
      destruct (solve A y) as [a|e]; subst tr'; by rewrite <- !app_assoc. }
    destruct (solve A y) as [a|e] eqn:Hs; rewrite Hrun.
    + split; [done|]. split; [by apply solve_sound|]. by split.
    + split; [done|]. by split.
Qed.
End RegressorFit.

(** ** Frames: what a method leaves alone *)

Section Frame.
Context {Obj B : Type} (f : Obj → B).

Lemma keeps_ret {A} (a : A) : keeps f (mret a).
Proof. by intros w. Qed.
Lemma keeps_raise {A} (e : error) : keeps f (raise (A:=A) e).
Proof. by intros w. Qed.
Lemma keeps_lift {A} (r : result A) : keeps f (lift r).
Proof. by intros w. Qed.
Lemma keeps_read {A} (g : Obj → A) : keeps f (read g).
Proof. by intros w. Qed.
Lemma keeps_call (e : event) : keeps f (call e).
Proof. by intros w. Qed.
Lemma keeps_attr_of {A} (o : option A) (e : error) : keeps f (attr_of o e).
Proof. by destruct o; intros w. Qed.
Lemma keeps_assign (g : Obj → Obj) : (∀ s, f (g s) = f s) → keeps f (assign g).
Proof. intros Hg w. simpl. apply Hg. Qed.
Lemma keeps_bind {A C} (m : M Obj A) (k : A → M Obj C) :
  keeps f m → (∀ a, keeps f (k a)) → keeps f (m ≫= k).
Proof.
  intros Hm Hk w. unfold mbind, M_bind, bind.
  specialize (Hm w). destruct (m w) as [[a|e] w'] eqn:Hmw; simpl in *.
  - by rewrite Hk.
  - done.
Qed.
End Frame.

(** ** KernelRidgeRegressor.predict *)

Section RegressorPredict.
Context {R : Type} `{!Scalar R} `{!Externals R}.
Import KernelRidgeRegressor.

Lemma regressor_predict_loop_fitted (s : t R) (k : Kernel R Sample) (a : vector R)
    (X : list Sample) :
  K s = Some k → alpha s = Some a →
  Forall (λ x, length a = length (similarity k x)) X →
  ∀ acc tr,
    predict_loop X acc (World s tr)
    = (Ok (acc ++ map (λ x, dot a (similarity k x)) X),
       World s (tr ++ replicate (length X) CallSimilarity)).
Proof.
  intros HK Ha. induction 1 as [|x X Hx HX IH]; intros acc tr.
  - simpl. by rewrite !app_nil_r.
  - simpl. run_method. rewrite HK. simpl. rewrite Ha. simpl.
    rewrite (np_dot_ok _ _ Hx). rewrite IH.
    by rewrite <- !app_assoc.
Qed.

Lemma regressor_predict_loop_unfitted (s : t R) (x : Sample) (X : list Sample)
    (acc : list R) (tr : list event) :
  K s = None →
  predict_loop (x :: X) acc (World s tr) = (Raise AttributeError, World s tr).
Proof. intros HK. simpl. run_method. by rewrite HK. Qed.

(** C6. On a fitted regressor, [predict] returns one scalar per input
    sample, in the order of the inputs; the scalar for sample [x] is
    the dot product of the stored [alpha] with [similarity(x)]. The
    samples are taken to have the shape the kernel was trained on
    (every similarity vector is as long as [alpha]). *)
Theorem regressor_predict_dot (s : t R) (tr : list event)
    (k : Kernel R Sample) (a : vector R) (X : list Sample) :
  K s = Some k → alpha s = Some a →
  Forall (λ x, length a = length (similarity k x)) X →
  ∃ preds,
    predict X (World s tr)
    = (Ok preds, World s (tr ++ replicate (length X) CallSimilarity))
    ∧ preds = map (λ x, dot a (similarity k x)) X
    ∧ length preds = length X
    ∧ ∀ i x, X !! i = Some x → preds !! i = Some (dot a (similarity k x)).
Proof.
  intros HK Ha Hshape. eexists. split; [|split; [reflexivity|split]].
  - unfold predict. by rewrite (regressor_predict_loop_fitted s k a X).
  - by rewrite length_map.
  - intros i x Hi. by rewrite list_lookup_fmap, Hi.
Qed.
End RegressorPredict.

(** ** np.argmax *)

Section Argmax.
Context {R : Type} `{!Scalar R}.

Lemma argmax_from_lt (l : list R) (best : R) (besti i : nat) :
  (besti < i)%nat → (argmax_from best besti i l < i + length l)%nat.
Proof.
  revert best besti i. induction l as [|x l IH]; intros best besti i Hlt; simpl.
  - lia.
  - destruct (ltb best x).
    + specialize (IH x i (S i)). lia.
    + specialize (IH best besti (S i)). lia.
Qed.

Lemma np_argmax_lt (l : list R) (p : nat) :
  np_argmax l = Ok p → (p < length l)%nat.
Proof.
  destruct l as [|x l]; simpl; [done|]. intros [= <-].
  pose proof (argmax_from_lt l x 0 1). lia.
Qed.

Lemma np_argmax_nonempty (l : list R) :
  l ≠ [] → ∃ p, np_argmax l = Ok p.
Proof. destruct l; [done|]. simpl. eauto. Qed.

Context `{!OrderLaws R}.

Lemma argmax_from_first_max (l pre : list R) (best : R) (besti : nat) :
  pre !! besti = Some best →
  (∀ j y, pre !! j = Some y → ltb best y = false) →
  (∀ j y, (j < besti)%nat → pre !! j = Some y → ltb y best = true) →
  is_first_max (pre ++ l) (argmax_from best besti (length pre) l).
Proof.
  revert pre best besti.
  induction l as [|x l IH]; intros pre best besti Hbest Hmax Hfirst.
  - simpl. rewrite app_nil_r. by exists best.
  - simpl. assert (Hlen : (besti < length pre)%nat) by by eapply lookup_lt_Some.
    replace (pre ++ x :: l) with ((pre ++ [x]) ++ l) by by rewrite <- app_assoc.
    replace (S (length pre)) with (length (pre ++ [x]))
      by (rewrite length_app; simpl; lia).
    destruct (ltb best x) eqn:Hbx.
    + apply IH.
      * by rewrite lookup_app_r, Nat.sub_diag.
      * intros j y Hj. apply lookup_app_Some in Hj as [Hj|[_ Hj]].
        -- destruct (ltb x y) eqn:Hxy; [|done].
           rewrite <- (Hmax j y Hj). symmetry. by eapply ltb_trans.
        -- apply list_lookup_singleton_Some in Hj as [_ <-]. apply ltb_irrefl.
      * intros j y Hj Hy. rewrite lookup_app_l in Hy by done.
        destruct (ltb_cotrans best y x Hbx) as [Hc|Hc]; [|done].
        by rewrite (Hmax j y Hy) in Hc.
    + apply IH.
      * by rewrite lookup_app_l.
      * intros j y Hj. apply lookup_app_Some in Hj as [Hj|[_ Hj]].
        -- by eapply Hmax.
        -- by apply list_lookup_singleton_Some in Hj as [_ <-].
      * intros j y Hj Hy. rewrite lookup_app_l in Hy by lia. by eapply Hfirst.
Qed.

Lemma np_argmax_first_max (l : list R) (p : nat) :
  np_argmax l = Ok p → is_first_max l p.
Proof.
  destruct l as [|x l]; simpl; [done|]. intros [= <-].
  apply (argmax_from_first_max l [x] x 0).
  - done.
  - intros [|j] y; simpl; [|done]. intros [= <-]. apply ltb_irrefl.
  - intros j y Hj. lia.
Qed.
End Argmax.

(** ** KernelRidgeClassifier.predict *)

Section ClassifierPredict.
Context {R : Type} `{!Scalar R} `{!Externals R}.
Import KernelRidgeClassifier.

Lemma scores_ok (alphas : list (vector R)) (s : vector R) :
  Forall (λ a, length a = length s) alphas →
  scores alphas s = Ok (class_scores alphas s).
Proof.
  induction 1 as [|a alphas Ha _ IH]; simpl; [done|].
  by rewrite (np_dot_ok _ _ Ha), IH.
Qed.

Lemma scores_inv (alphas : list (vector R)) (s : vector R) (ds : list R) :
  scores alphas s = Ok ds → ds = class_scores alphas s.
Proof.
  revert ds. induction alphas as [|a alphas IH]; simpl; intros ds.
  - by intros [= <-].
  - destruct (np_dot a s) as [d|] eqn:Hd; [|done].
    destruct (scores alphas s) as [ds'|]; [|done]. intros [= <-].
    apply np_dot_inv in Hd as [-> _]. by rewrite (IH ds').
Qed.

(** Whatever [predict] returns on a fitted classifier: one index per
    sample, each the [np.argmax] of that sample's scores. *)
Lemma classifier_predict_loop_inv (s : t R) (k : Kernel R Sample)
    (alphas : list (vector R)) (X : list Sample) :
  K s = Some k → alpha s = Some alphas →
  ∀ acc tr out w',
    predict_loop X acc (World s tr) = (Ok out, w') →
    ∃ preds, out = acc ++ preds
      ∧ w' = World s (tr ++ replicate (length X) CallSimilarity)
      ∧ Forall2 (λ x p, np_argmax (class_scores alphas (similarity k x)) = Ok p)
                X preds.
Proof.
  intros HK Ha. induction X as [|x X IH]; intros acc tr out w'.
  - simpl. intros [= <- <-]. exists []. by rewrite !app_nil_r.
  - simpl. run_method. rewrite HK. simpl. rewrite Ha. simpl.
    destruct (scores alphas (similarity k x)) as [ds|] eqn:Hds; [|done].
    apply scores_inv in Hds as ->.
    destruct (np_argmax _) as [p|] eqn:Hp; [|done].
    intros Hrun. apply IH in Hrun as (preds & -> & -> & HF).
    exists (p :: preds). rewrite <- !app_assoc.
    split; [done|split; [done|by constructor]].
Qed.

(** On well-shaped samples and at least one coefficient vector,
    [predict] does return. *)
Lemma classifier_predict_loop_total (s : t R) (k : Kernel R Sample)
    (alphas : list (vector R)) (X : list Sample) :
  K s = Some k → alpha s = Some alphas → alphas ≠ [] →
  Forall (λ x, Forall (λ a, length a = length (similarity k x)) alphas) X →
  ∀ acc tr, ∃ out w', predict_loop X acc (World s tr) = (Ok out, w').
Proof.
  intros HK Ha Hne. induction 1 as [|x X Hx _ IH]; intros acc tr.
  - simpl. by eexists _, _.
  - simpl. run_method. rewrite HK. simpl. rewrite Ha. simpl.
    rewrite (scores_ok _ _ Hx).
    destruct (np_argmax_nonempty (class_scores alphas (similarity k x))) as [p ->].
    { unfold class_scores. by destruct alphas. }
    apply IH.
Qed.

Lemma classifier_predict_loop_unfitted (s : t R) (x : Sample) (X : list Sample)
    (acc : list nat) (tr : list event) :
  K s = None →
  predict_loop (x :: X) acc (World s tr) = (Raise AttributeError, World s tr).
Proof. intros HK. simpl. run_method. by rewrite HK. Qed.
End ClassifierPredict.

(** ** Traces *)

Section Emits.
Context {Obj : Type} (P : event → Prop).

Lemma emits_ret {A} (a : A) : emits (Obj:=Obj) P (mret a).
Proof. intros w. exists []. by rewrite app_nil_r. Qed.
Lemma emits_raise {A} (e : error) : emits (Obj:=Obj) P (raise (A:=A) e).
Proof. intros w. exists []. by rewrite app_nil_r. Qed.
Lemma emits_lift {A} (r : result A) : emits (Obj:=Obj) P (lift r).
Proof. intros w. exists []. by rewrite app_nil_r. Qed.
Lemma emits_read {A} (g : Obj → A) : emits P (read g).
Proof. intros w. exists []. by rewrite app_nil_r. Qed.
Lemma emits_assign (g : Obj → Obj) : emits P (assign g).
Proof. intros w. exists []. by rewrite app_nil_r. Qed.
Lemma emits_attr_of {A} (o : option A) (e : error) : emits (Obj:=Obj) P (attr_of o e).
Proof. destruct o; intros w; exists []; by rewrite app_nil_r. Qed.
Lemma emits_call (e : event) : P e → emits (Obj:=Obj) P (call e).
Proof. intros He w. exists [e]. split; [done|]. by constructor. Qed.
Lemma emits_bind {A C} (m : M Obj A) (k : A → M Obj C) :
  emits P m → (∀ a, emits P (k a)) → emits P (m ≫= k).
Proof.
  intros Hm Hk w. unfold mbind, M_bind, bind.
  destruct (Hm w) as (l & Hl & HP). destruct (m w) as [[a|e] w']; simpl in *.
  - destruct (Hk a w') as (l' & Hl' & HP'). exists (l ++ l').
    rewrite Hl', Hl, <- app_assoc. split; [done|]. by apply Forall_app.
  - by exists l.
Qed.
End Emits.

(** ** The augmented classifier runs the plain classifier on extracted features *)

Section AugmentedSimulation.
Context {R : Type} `{!Scalar R} `{!Externals R}.
Import AugmentedHogsKernelRidgeClassifier.

Lemma with_model_plain (s : t R) : with_model s (plain s) = s.
Proof. by destruct s. Qed.

Lemma augmented_predict_loop_plain (X : list Sample) :
  ∀ (acc : list nat) (s : t R) (tr : list event),
    predict_loop X acc (World s tr)
    = let r := KernelRidgeClassifier.predict_loop X acc (World (plain s) tr) in
      (r.1, World s (trace r.2)).
Proof.
  induction X as [|x X IH]; intros acc s tr; simpl; [done|].
  run_method. destruct (K s) as [k|]; simpl; [|done].
  destruct (alpha s) as [alphas|]; simpl; [|done].
  destruct (KernelRidgeClassifier.scores _ _) as [ds|]; simpl; [|done].
  destruct (np_argmax ds) as [p|]; simpl; [|done].
  apply IH.
Qed.

Lemma augmented_fit_loop_plain (Kmat Y : matrix R) (classes : list label) :
  ∀ (s : t R) (tr : list event),
    fit_loop Kmat Y classes (World s tr)
    = let r := KernelRidgeClassifier.fit_loop Kmat Y classes (World (plain s) tr) in
      (r.1, World (with_model s (self r.2)) (trace r.2)).
Proof.
  induction classes as [|c classes IH]; intros s tr; simpl.
  - by rewrite with_model_plain.
  - run_method. destruct (alpha s) as [acc|]; simpl; [|by rewrite with_model_plain].
    destruct (column Y c) as [target|]; simpl; [|by rewrite with_model_plain].
    destruct (solve Kmat target) as [a|]; simpl; [|by rewrite with_model_plain].
    apply IH.
Qed.

Lemma augmented_fit_plain (X : list Image) (y : list label) (s : t R) (tr : list event) :
  let Xy := augment_dataset X y (flip_ratio s) (rot_replicas s) (rot_ratio s) (rot_angle s) in
  let r := KernelRidgeClassifier.fit (transform (hog_extractor s) Xy.1) Xy.2
             (World (plain s) (tr ++ [CallAugment; CallTransform])) in
  fit X y (World s tr) = (r.1, World (with_model s (self r.2)) (trace r.2)).
Proof.
  intros Xy r. subst r. unfold fit, KernelRidgeClassifier.fit. run_method.
  fold Xy. rewrite <- !app_assoc. simpl.
  destruct (fit_transform Xy.2) as [Y|]; simpl; [|by rewrite with_model_plain].
  destruct (kernels !! kernel s) as [ctor|]; simpl; [|by rewrite with_model_plain].
  rewrite augmented_fit_loop_plain. simpl.
  destruct (KernelRidgeClassifier.fit_loop _ _ _ _) as [[[]|e] [s' tr']]; simpl; [|done].
  by destruct (KernelRidgeClassifier.alpha s').
Qed.

Lemma augmented_predict_plain (X : list Image) (s : t R) (tr : list event) :
  let r := KernelRidgeClassifier.predict (transform (hog_extractor s) X)
             (World (plain s) (tr ++ [CallTransform])) in
  predict X (World s tr) = (r.1, World s (trace r.2)).
Proof.
  intros r. subst r. unfold predict, KernelRidgeClassifier.predict. run_method.
  apply augmented_predict_loop_plain.
Qed.
End AugmentedSimulation.

(** ** sorted(set(y)), the binarizer and column selection *)

Lemma sorted_set_pair_lt (y : list label) (c0 c1 : label) :
  sorted_set y = [c0; c1] → c0 < c1.
Proof.
  intros Hy.
  assert (Hs : Sorted Z.le [c0; c1]).
  { rewrite <- Hy. apply (Sorted_merge_sort Z.le). }
  assert (Hn : NoDup [c0; c1]).
  { rewrite <- Hy. unfold sorted_set. rewrite merge_sort_Permutation.
    apply NoDup_remove_dups. }
  apply Sorted_inv in Hs as [_ Hle]. apply HdRel_inv in Hle.
  apply NoDup_cons in Hn as [Hne _]. rewrite list_elem_of_singleton in Hne. lia.
Qed.



Lemma surjective_pairing_run {A W} (rw : result A * W) (a : A) :
  rw.1 = Ok a → rw = (Ok a, rw.2).
Proof. destruct rw as [r w]. simpl. by intros ->. Qed.

Section Binarizer.
Context {R : Type} `{!Scalar R}.



(** A binary problem gets a single column, and so does a single class. *)
Lemma fit_transform_binary (y : list label) (c0 c1 : label) :
  sorted_set y = [c0; c1] →
  ∃ Y, fit_transform (R:=R) y = Ok Y ∧ ncols Y = 1%nat
       ∧ Y = map (λ l, [if decide (l = c1) then pos_label else neg_label]) y.
Proof.
  intros Hy. unfold fit_transform. rewrite Hy.
  destruct y as [|l y]; [done|]. eexists. split; [done|]. done.
Qed.

Lemma fit_transform_nonempty (y : list label) :
  y ≠ [] → ∃ Y, fit_transform (R:=R) y = Ok Y.
Proof.
  intros Hy. unfold fit_transform. destruct y as [|l y]; [done|].
  destruct (sorted_set (l :: y)) as [|? [|? [|? ?]]]; eauto.
Qed.
End Binarizer.

(** ** KernelRidgeClassifier.fit *)

Section ClassifierFit.
Context {R : Type} `{!Scalar R} `{!Externals R}.
Import KernelRidgeClassifier.

Lemma set_alpha_set_alpha (a b : list (vector R)) (s : t R) :
  set_alpha b (set_alpha a s) = set_alpha b s.
Proof. done. Qed.

Lemma set_alpha_id (a : list (vector R)) (s : t R) :
  alpha s = Some a → set_alpha a s = s.
Proof. destruct s; simpl. by intros ->. Qed.

End ClassifierFit.

Section ClassifierFitClaims.
Context {R : Type} `{!Scalar R} `{!Externals R}.
Import KernelRidgeClassifier.




(** A binary problem: [fit] cannot return unless the two labels are
    -1 and 0, and then the two stored coefficient vectors are one and
    the same solve of one and the same target. *)
Lemma classifier_fit_binary
    (s : t R) (tr : list event) (X : list Sample) (y : list label)
    (c0 c1 : label) (w' : world (t R)) :
  sorted_set y = [c0; c1] →
  fit X y (World s tr) = (Ok tt, w') →
  c0 = -1 ∧ c1 = 0 ∧ ∃ a, alpha (self w') = Some [a; a].
Proof.
  intros Hy. pose proof (sorted_set_pair_lt y c0 c1 Hy) as Hlt.
  destruct (fit_transform_binary (R:=R) y c0 c1 Hy) as (Y & HY & Hcols & _).
  unfold fit. run_method. rewrite HY. simpl.
  destruct (kernels !! kernel s) as [ctor|]; simpl; [|done].
  rewrite Hy. simpl. run_method.
  unfold column. rewrite Hcols. unfold np_index.
  repeat case_decide; simpl; try done; try lia.
  all: destruct (solve _ _) as [a|] eqn:Ha; simpl; try done.
  assert (c0 = -1) as -> by lia. assert (c1 = 0) as -> by lia.
  change (Z.to_nat (-1 + Z.of_nat 1)) with (Z.to_nat 0) in Ha.
  rewrite Ha. simpl. intros [= <-]. simpl. eauto.
Qed.
End ClassifierFitClaims.

(** ** What fit and predict leave alone, and which collaborators they call *)

Ltac frame_step :=
  first
    [ apply keeps_bind | apply keeps_ret | apply keeps_raise | apply keeps_lift
    | apply keeps_read | apply keeps_call | apply keeps_attr_of
    | apply keeps_assign; done
    | apply emits_bind | apply emits_ret | apply emits_raise | apply emits_lift
    | apply emits_read | apply emits_assign | apply emits_attr_of
    | apply emits_call; done ].
Ltac frame := repeat (intros; cbv beta zeta; try frame_step).

Section Frames.
Context {R : Type} `{!Scalar R} `{!Externals R}.

Lemma regressor_fit_keeps_config (X : list Sample) (y : vector R) :
  keeps KernelRidgeRegressor.config (KernelRidgeRegressor.fit X y).
Proof. unfold KernelRidgeRegressor.fit. frame. Qed.

Lemma regressor_predict_keeps_self (X : list Sample) :
  keeps id (KernelRidgeRegressor.predict X).
Proof.
  unfold KernelRidgeRegressor.predict. generalize (@nil R).
  induction X as [|x X IH]; intros acc; simpl; frame. apply IH.
Qed.

Lemma classifier_fit_loop_keeps_config (Kmat Y : matrix R) (classes : list label) :
  keeps KernelRidgeClassifier.config (KernelRidgeClassifier.fit_loop Kmat Y classes).
Proof. induction classes as [|c classes IH]; simpl; frame. apply IH. Qed.

Lemma classifier_fit_keeps_config (X : list Sample) (y : list label) :
  keeps KernelRidgeClassifier.config (KernelRidgeClassifier.fit X y).
Proof.
  unfold KernelRidgeClassifier.fit. frame. apply classifier_fit_loop_keeps_config.
Qed.

Lemma classifier_predict_keeps_self (X : list Sample) :
  keeps id (KernelRidgeClassifier.predict X).
Proof.
  unfold KernelRidgeClassifier.predict. generalize (@nil nat).
  induction X as [|x X IH]; intros acc; simpl; frame. apply IH.
Qed.

Lemma augmented_fit_loop_keeps_config (Kmat Y : matrix R) (classes : list label) :
  keeps AugmentedHogsKernelRidgeClassifier.config
    (AugmentedHogsKernelRidgeClassifier.fit_loop Kmat Y classes).
Proof. induction classes as [|c classes IH]; simpl; frame. apply IH. Qed.

Lemma augmented_fit_keeps_config (X : list Image) (y : list label) :
  keeps AugmentedHogsKernelRidgeClassifier.config
    (AugmentedHogsKernelRidgeClassifier.fit X y).
Proof.
  unfold AugmentedHogsKernelRidgeClassifier.fit. frame.
  apply augmented_fit_loop_keeps_config.
Qed.

Lemma augmented_predict_keeps_self (X : list Image) :
  keeps id (AugmentedHogsKernelRidgeClassifier.predict X).
Proof.
  unfold AugmentedHogsKernelRidgeClassifier.predict. frame.
  generalize (@nil nat).
  induction (transform a X) as [|x X' IH]; intros acc; simpl; frame. apply IH.
Qed.

Lemma classifier_fit_loop_emits (Kmat Y : matrix R) (classes : list label) :
  emits pipeline_call (KernelRidgeClassifier.fit_loop Kmat Y classes).
Proof. induction classes as [|c classes IH]; simpl; frame. apply IH. Qed.

Lemma classifier_fit_emits (X : list Sample) (y : list label) :
  emits pipeline_call (KernelRidgeClassifier.fit X y).
Proof.
  unfold KernelRidgeClassifier.fit. frame. apply classifier_fit_loop_emits.
Qed.

Lemma classifier_predict_emits (X : list Sample) :
  emits pipeline_call (KernelRidgeClassifier.predict X).
Proof.
  unfold KernelRidgeClassifier.predict. generalize (@nil nat).
  induction X as [|x X IH]; intros acc; simpl; frame. apply IH.
Qed.

(** C9. [fit] and [predict] never change a hyperparameter ([C], the
    kernel name, [gamma], and for the augmented variant [flip_ratio],
    [rot_replicas], [rot_ratio], [rot_angle]), whether they return or
    raise; and [predict] leaves the whole object, so the Kernel
    instance and the coefficients as well, exactly as it found it. *)
Theorem hyperparameters_and_model_frozen :
  (∀ X y, keeps KernelRidgeRegressor.config (KernelRidgeRegressor.fit X y))
  ∧ (∀ X, keeps id (KernelRidgeRegressor.predict X))
  ∧ (∀ X y, keeps KernelRidgeClassifier.config (KernelRidgeClassifier.fit X y))
  ∧ (∀ X, keeps id (KernelRidgeClassifier.predict X))
  ∧ (∀ X y, keeps AugmentedHogsKernelRidgeClassifier.config
              (AugmentedHogsKernelRidgeClassifier.fit X y))
  ∧ (∀ X, keeps id (AugmentedHogsKernelRidgeClassifier.predict X)).
Proof.
  repeat split; intros.
  - apply regressor_fit_keeps_config.
  - apply regressor_predict_keeps_self.
  - apply classifier_fit_keeps_config.
  - apply classifier_predict_keeps_self.
  - apply augmented_fit_keeps_config.
  - apply augmented_predict_keeps_self.
Qed.
End Frames.

(** ** The claims on predict *)

Section PredictClaims.
Context {R : Type} `{!Scalar R} `{!Externals R}.

(** C3 (amended). On a fitted classifier with at least one coefficient
    vector and well-shaped samples, [predict] computes for every
    sample the dot product of each coefficient vector with the
    sample's similarity vector and returns, in the order of the
    samples, the POSITION of the greatest one in the coefficient
    array, the lowest position when several are greatest. The
    position is returned as it is: nothing maps it back to a
    training label. *)
Theorem classifier_predict_first_max `{!OrderLaws R}
    (s : KernelRidgeClassifier.t R) (tr : list event)
    (k : Kernel R Sample) (alphas : list (vector R)) (X : list Sample) :
  KernelRidgeClassifier.K s = Some k →
  KernelRidgeClassifier.alpha s = Some alphas →
  alphas ≠ [] →
  Forall (λ x, Forall (λ a, length a = length (similarity k x)) alphas) X →
  ∃ preds,
    KernelRidgeClassifier.predict X (World s tr)
    = (Ok preds, World s (tr ++ replicate (length X) CallSimilarity))
    ∧ Forall2 (λ x p, is_first_max (class_scores alphas (similarity k x)) p) X preds.
Proof.
  intros HK Ha Hne Hshape.
  destruct (classifier_predict_loop_total s k alphas X HK Ha Hne Hshape [] tr)
    as (out & w' & Hrun).
  destruct (classifier_predict_loop_inv s k alphas X HK Ha _ _ _ _ Hrun)
    as (preds & -> & -> & HF).
  exists preds. split; [done|].
  eapply Forall2_impl; [exact HF|]. intros x p. apply np_argmax_first_max.
Qed.

(** C10. On a fitted classifier, plain or augmented, every value
    [predict] returns is a position in the coefficient array: a
    natural number below the number of stored coefficient vectors,
    one per sample, whatever the training labels were. And [predict]
    does return when there is a coefficient vector and the samples
    are well-shaped. *)
Theorem classifier_predict_index_in_range :
  (∀ (s : KernelRidgeClassifier.t R) tr k alphas (X : list Sample),
     KernelRidgeClassifier.K s = Some k →
     KernelRidgeClassifier.alpha s = Some alphas →
     (alphas ≠ [] →
      Forall (λ x, Forall (λ a, length a = length (similarity k x)) alphas) X →
      ∃ preds w', KernelRidgeClassifier.predict X (World s tr) = (Ok preds, w'))
     ∧ (∀ preds w',
          KernelRidgeClassifier.predict X (World s tr) = (Ok preds, w') →
          length preds = length X
          ∧ Forall (λ p, (p < length alphas)%nat) preds))
  ∧ (∀ (s : AugmentedHogsKernelRidgeClassifier.t R) tr k alphas (X : list Image),
     AugmentedHogsKernelRidgeClassifier.K s = Some k →
     AugmentedHogsKernelRidgeClassifier.alpha s = Some alphas →
     let F := transform (AugmentedHogsKernelRidgeClassifier.hog_extractor s) X in
     (alphas ≠ [] →
      Forall (λ x, Forall (λ a, length a = length (similarity k x)) alphas) F →
      ∃ preds w', AugmentedHogsKernelRidgeClassifier.predict X (World s tr) = (Ok preds, w'))
     ∧ (∀ preds w',
          AugmentedHogsKernelRidgeClassifier.predict X (World s tr) = (Ok preds, w') →
          length preds = length F
          ∧ Forall (λ p, (p < length alphas)%nat) preds)).
Proof.
  assert (Hplain : ∀ (s : KernelRidgeClassifier.t R) tr k alphas (X : list Sample),
     KernelRidgeClassifier.K s = Some k →
     KernelRidgeClassifier.alpha s = Some alphas →
     (alphas ≠ [] →
      Forall (λ x, Forall (λ a, length a = length (similarity k x)) alphas) X →
      ∃ preds w', KernelRidgeClassifier.predict X (World s tr) = (Ok preds, w'))
     ∧ (∀ preds w',
          KernelRidgeClassifier.predict X (World s tr) = (Ok preds, w') →
          length preds = length X
          ∧ Forall (λ p, (p < length alphas)%nat) preds)).
  { intros s tr k alphas X HK Ha. split.
    - intros Hne Hshape.
      apply (classifier_predict_loop_total s k alphas X HK Ha Hne Hshape).
    - intros preds w' Hrun.
      destruct (classifier_predict_loop_inv s k alphas X HK Ha _ _ _ _ Hrun)
        as (preds' & -> & _ & HF). simpl. split.
      + symmetry. by eapply Forall2_length.
      + clear Hrun. induction HF as [|x p X preds' Hp _ IH]; constructor; [|done].
        apply np_argmax_lt in Hp. unfold class_scores in Hp.
        by rewrite length_map in Hp. }
  split; [exact Hplain|].
  intros s tr k alphas X HK Ha F.
  pose proof (augmented_predict_plain X s tr) as Hsim. simpl in Hsim.
  destruct (Hplain (AugmentedHogsKernelRidgeClassifier.plain s)
              (tr ++ [CallTransform]) k alphas F HK Ha) as [Htot Hinv].
  split.
  - intros Hne Hshape. destruct (Htot Hne Hshape) as (preds & w' & Hrun).
    fold F in Hsim. rewrite Hrun in Hsim. simpl in Hsim. eauto.
  - intros preds w' Hrun. fold F in Hsim. rewrite Hrun in Hsim.
    destruct (KernelRidgeClassifier.predict F _) as [r w''] eqn:Hp.
    simpl in Hsim. injection Hsim as <- _. by eapply Hinv.
Qed.

(** C8 (amended). On an estimator that holds no Kernel instance
    ([fit] not called), [predict] on a NON-EMPTY sequence of samples
    raises [AttributeError] at the first sample, before any
    prediction is made and without touching the object. On an empty
    sequence (for the augmented variant: when the extracted features
    are empty) [predict] returns the empty result, fitted or not. *)
Theorem predict_before_fit_raises :
  (∀ (s : KernelRidgeRegressor.t R) tr x X,
     KernelRidgeRegressor.K s = None →
     KernelRidgeRegressor.predict (x :: X) (World s tr)
     = (Raise AttributeError, World s tr))
  ∧ (∀ (s : KernelRidgeClassifier.t R) tr x X,
     KernelRidgeClassifier.K s = None →
     KernelRidgeClassifier.predict (x :: X) (World s tr)
     = (Raise AttributeError, World s tr))
  ∧ (∀ (s : AugmentedHogsKernelRidgeClassifier.t R) tr X,
     AugmentedHogsKernelRidgeClassifier.K s = None →
     transform (AugmentedHogsKernelRidgeClassifier.hog_extractor s) X ≠ [] →
     AugmentedHogsKernelRidgeClassifier.predict X (World s tr)
     = (Raise AttributeError, World s (tr ++ [CallTransform])))
  ∧ (∀ (s : KernelRidgeRegressor.t R) tr,
     KernelRidgeRegressor.predict [] (World s tr) = (Ok [], World s tr))
  ∧ (∀ (s : KernelRidgeClassifier.t R) tr,
     KernelRidgeClassifier.predict [] (World s tr) = (Ok [], World s tr))
  ∧ (∀ (s : AugmentedHogsKernelRidgeClassifier.t R) tr X,
     transform (AugmentedHogsKernelRidgeClassifier.hog_extractor s) X = [] →
     AugmentedHogsKernelRidgeClassifier.predict X (World s tr)
     = (Ok [], World s (tr ++ [CallTransform]))).
Proof.
  split; [|split; [|split; [|split; [|split]]]].
  - intros s tr x X HK. by apply regressor_predict_loop_unfitted.
  - intros s tr x X HK. by apply classifier_predict_loop_unfitted.
  - intros s tr X HK Hne.
    rewrite augmented_predict_plain. simpl.
    destruct (transform _ X) as [|x F]; [done|].
    unfold KernelRidgeClassifier.predict.
    by rewrite classifier_predict_loop_unfitted.
  - done.
  - done.
  - intros s tr X HF. unfold AugmentedHogsKernelRidgeClassifier.predict.
    run_method. by rewrite HF.
Qed.
End PredictClaims.

(** ** The kernel registry is consulted by fit *)

Section UnknownKernel.
Context {R : Type} `{!Scalar R} `{!Externals R}.

(** C2 (amended). With a kernel name that is not in the registry the
    constructor still returns an estimator: it only stores the name.
    The lookup fails when [fit] is called: [fit] raises [KeyError]
    and leaves the estimator as it was. In the classifiers the label
    binarizer runs before the lookup, so the [KeyError] is reached
    when the label vector handed to it is not empty. *)
Theorem unknown_kernel_raises_in_fit (name : string) :
  kernels !! name = None →
  (∀ C0 g,
     KernelRidgeRegressor.__init__ C0 name g
     = Ok {| KernelRidgeRegressor.C := C0; KernelRidgeRegressor.kernel := name;
             KernelRidgeRegressor.gamma := g; KernelRidgeRegressor.K := None;
             KernelRidgeRegressor.alpha := None |})
  ∧ (∀ (s : KernelRidgeRegressor.t R) tr X y,
     KernelRidgeRegressor.kernel s = name →
     KernelRidgeRegressor.fit X y (World s tr) = (Raise KeyError, World s tr))
  ∧ (∀ C0 g,
     KernelRidgeClassifier.__init__ C0 name g
     = Ok {| KernelRidgeClassifier.C := C0; KernelRidgeClassifier.kernel := name;
             KernelRidgeClassifier.gamma := g; KernelRidgeClassifier.K := None;
             KernelRidgeClassifier.alpha := None |})
  ∧ (∀ (s : KernelRidgeClassifier.t R) tr X y,
     KernelRidgeClassifier.kernel s = name → y ≠ [] →
     KernelRidgeClassifier.fit X y (World s tr)
     = (Raise KeyError, World s (tr ++ [CallBinarizer])))
  ∧ (∀ C0 g fr rn rr ra,
     is_ok (AugmentedHogsKernelRidgeClassifier.__init__ C0 name g fr rn rr ra) = true)
  ∧ (∀ (s : AugmentedHogsKernelRidgeClassifier.t R) tr X y,
     AugmentedHogsKernelRidgeClassifier.kernel s = name →
     (augment_dataset X y
        (AugmentedHogsKernelRidgeClassifier.flip_ratio s)
        (AugmentedHogsKernelRidgeClassifier.rot_replicas s)
        (AugmentedHogsKernelRidgeClassifier.rot_ratio s)
        (AugmentedHogsKernelRidgeClassifier.rot_angle s)).2 ≠ [] →
     AugmentedHogsKernelRidgeClassifier.fit X y (World s tr)
     = (Raise KeyError, World s (tr ++ [CallAugment; CallTransform; CallBinarizer]))).
Proof.
  intros Hreg.
  assert (Hplain : ∀ (s : KernelRidgeClassifier.t R) tr X y,
     KernelRidgeClassifier.kernel s = name → y ≠ [] →
     KernelRidgeClassifier.fit X y (World s tr)
     = (Raise KeyError, World s (tr ++ [CallBinarizer]))).
  { intros s tr X y Hname Hy.
    destruct (fit_transform_nonempty (R:=R) y Hy) as [Y HY].
    unfold KernelRidgeClassifier.fit. run_method.
    by rewrite HY; simpl; rewrite Hname, Hreg. }
  repeat split; try done.
  - intros s tr X y Hname. unfold KernelRidgeRegressor.fit. run_method.
    by rewrite Hname, Hreg.
  - intros s tr X y Hname Hy.
    rewrite augmented_fit_plain. rewrite Hplain by done. simpl.
    by rewrite with_model_plain, <- app_assoc.
Qed.
End UnknownKernel.

(** ** Augmentation belongs to fit *)

Section Augmentation.
Context {R : Type} `{!Scalar R} `{!Externals R}.
Import AugmentedHogsKernelRidgeClassifier.

(** C7. In the augmented classifier, [fit] first augments the
    dataset, then extracts the features of the augmented samples, and
    from there on is the plain classifier's [fit] on those features
    and the augmented labels; [predict] extracts the features of its
    input and from there on is the plain classifier's [predict]. The
    augmentation is called exactly once by [fit], before the feature
    extraction, and never by [predict]. *)
Theorem augmentation_only_in_fit
    (s : t R) (tr : list event) (X : list Image) (y : list label) :
  let Xy := augment_dataset X y (flip_ratio s) (rot_replicas s) (rot_ratio s) (rot_angle s) in
  let h := hog_extractor s in
  (let r := KernelRidgeClassifier.fit (transform h Xy.1) Xy.2
              (World (plain s) (tr ++ [CallAugment; CallTransform])) in
   fit X y (World s tr) = (r.1, World (with_model s (self r.2)) (trace r.2)))
  ∧ (∃ l, trace (fit X y (World s tr)).2 = tr ++ CallAugment :: CallTransform :: l
          ∧ Forall pipeline_call l)
  ∧ (let r := KernelRidgeClassifier.predict (transform h X)
                (World (plain s) (tr ++ [CallTransform])) in
     predict X (World s tr) = (r.1, World s (trace r.2)))
  ∧ (∃ l, trace (predict X (World s tr)).2 = tr ++ CallTransform :: l
          ∧ Forall pipeline_call l).
Proof.
  intros Xy h. split; [|split; [|split]].
  - apply augmented_fit_plain.
  - rewrite augmented_fit_plain. cbn [snd trace]. fold Xy h.
    destruct (classifier_fit_emits (transform h Xy.1) Xy.2
                (World (plain s) (tr ++ [CallAugment; CallTransform]))) as (l & Hl & HP).
    exists l. split; [|done]. rewrite Hl. cbn [trace]. by rewrite <- app_assoc.
  - apply augmented_predict_plain.
  - rewrite augmented_predict_plain. cbn [snd trace]. fold h.
    destruct (classifier_predict_emits (transform h X)
                (World (plain s) (tr ++ [CallTransform]))) as (l & Hl & HP).
    exists l. split; [|done]. rewrite Hl. cbn [trace]. by rewrite <- app_assoc.
Qed.
End Augmentation.

(** * The rational environment: laws, and the code run on explicit inputs *)

Section DemoFacts.
Import Demo.
Local Open Scope Qc_scope.

Lemma Qc_add_zero_r (x : Qc) : add x zero = x.
Proof. apply Qcplus_0_r. Qed.

#[export] Instance Qc_order_laws : OrderLaws Qc.
Proof.
  split; simpl.
  - intros a. apply bool_decide_eq_false. intros Ha.
    by apply (Qclt_not_eq a a).
  - intros a b c Hab Hbc. apply bool_decide_eq_true.
    apply bool_decide_eq_true in Hab, Hbc. by eapply Qclt_trans.
  - intros a b c Hac. apply bool_decide_eq_true in Hac.
    destruct (Qclt_le_dec a b) as [Hab|Hba].
    + left. by apply bool_decide_eq_true.
    + right. apply bool_decide_eq_true. by eapply Qcle_lt_trans.
Qed.

(** The solver answers only with a vector it has checked. *)
Lemma solve_pos_sound (A : matrix Qc) (b x : vector Qc) :
  solve A b = Ok x → mat_vec A x = b.
Proof.
  simpl. unfold solve_pos. case_decide; [|done].
  destruct (gauss _ _) as [x'|]; [|done].
  case_decide; [|done]. by intros [= <-].
Qed.
End DemoFacts.

Section DemoRuns.
Import Demo.

Lemma linear_registered : (kernels : gmap string _) !! "linear" = Some linear.
Proof. vm_compute. reflexivity. Qed.

Lemma unknown_not_registered : (kernels : gmap string _) !! "sigmoid" = None.
Proof. vm_compute. reflexivity. Qed.

(** [regressor_fit_regularized_solve] at [X3], [y = [4, 8, 12]],
    [C = 1]: the system is [4 I], the coefficients are [1, 2, 3]. *)
Lemma regressor_fit_regularized_solve_witness :
  ∃ a, KernelRidgeRegressor.fit X3 [q 4; q 8; q 12] (World (regressor "linear") [])
       = (Ok tt,
          World (KernelRidgeRegressor.set_alpha a
                   (KernelRidgeRegressor.set_K (linear X3 (q 10)) (regressor "linear")))
                [CallKernel "linear"; CallSimilarityMatrix; CallSolve])
       ∧ mat_vec A3 a = [q 4; q 8; q 12]
       ∧ map this a = [1%Q; 2%Q; 3%Q]
       ∧ entry A3 0 0 = Some (add (q 1) (mul (q 1) (of_nat 3)))
       ∧ entry A3 0 1 = Some (q 0)
       ∧ KernelRidgeRegressor.alpha
           (self (KernelRidgeRegressor.fit X3 [q 4; q 8; q 12]
                    (World (regressor "linear") [])).2) = Some a
       ∧ KernelRidgeRegressor.K
           (self (KernelRidgeRegressor.fit X3 [q 4; q 8; q 12]
                    (World (regressor "linear") [])).2) = Some (linear X3 (q 10)).
Proof.
  destruct (regressor_fit_regularized_solve Qc_add_zero_r solve_pos_sound
              (regressor "linear") [] X3 [q 4; q 8; q 12] linear linear_registered)
    as [Hentries Hfit].
  change (add_diag _ _) with A3 in Hfit, Hentries.
  destruct (solve A3 [q 4; q 8; q 12]) as [a|e] eqn:Hs.
  - exists a. destruct Hfit as (Hfit & Hsol & Halpha & HK).
    split; [exact Hfit|]. split; [exact Hsol|].
    split.
    + vm_compute in Hs. injection Hs as <-. reflexivity.
    + split; [rewrite Hentries; reflexivity|].
      split; [rewrite Hentries; reflexivity|].
      split; [exact Halpha|exact HK].
  - vm_compute in Hs. discriminate Hs.
Defined.

(** C2 as stated fails: "sigmoid" is not a registered kernel, yet the
    constructor returns an estimator; the [KeyError] comes from [fit]. *)
Lemma constructor_accepts_unknown_kernel :
  (kernels : gmap string _) !! "sigmoid" = None
  ∧ ¬ (∃ e, KernelRidgeRegressor.__init__ (q 1) "sigmoid" (q 10) = Raise e)
  ∧ KernelRidgeRegressor.__init__ (q 1) "sigmoid" (q 10) = Ok (regressor "sigmoid")
  ∧ (KernelRidgeRegressor.fit X3 [q 4; q 8; q 12] (World (regressor "sigmoid") [])).1
    = Raise KeyError.
Proof.
  split; [exact unknown_not_registered|]. split; [by intros [e He]|].
  split; [reflexivity|]. vm_compute. reflexivity.
Qed.

Lemma unknown_kernel_raises_in_fit_witness :
  KernelRidgeRegressor.fit X3 [q 4; q 8; q 12] (World (regressor "sigmoid") [])
  = (Raise KeyError, World (regressor "sigmoid") [])
  ∧ KernelRidgeClassifier.fit X3 [0; 1; 2] (World (classifier "sigmoid") [])
    = (Raise KeyError, World (classifier "sigmoid") [CallBinarizer]).
Proof.
  destruct (unknown_kernel_raises_in_fit "sigmoid" unknown_not_registered)
    as (_ & Hreg & _ & Hclf & _).
  split.
  - exact (Hreg (regressor "sigmoid") [] X3 [q 4; q 8; q 12] eq_refl).
  - refine (Hclf (classifier "sigmoid") [] X3 [0; 1; 2] eq_refl _). discriminate.
Defined.

(** C3 as stated fails: trained on the labels -1, 0, 1, the classifier
    answers 1, 2, 0 on its own training samples; 2 is the label of no
    class, so it is not a label mapped back from a class index. *)
Lemma classifier_predict_not_a_label :
  ∃ w preds,
    KernelRidgeClassifier.fit X3 [-1; 0; 1] (World (classifier "linear") []) = (Ok tt, w)
    ∧ (KernelRidgeClassifier.predict X3 w).1 = Ok preds
    ∧ preds = [1; 2; 0]%nat
    ∧ ¬ Forall (λ p, ∃ i, sorted_set [-1; 0; 1] !! i = Some (Z.of_nat p)) preds.
Proof.
  eexists _, [1; 2; 0]%nat. split; [apply surjective_pairing_run; vm_compute; reflexivity|].
  split; [|split; [done|]].
  - vm_compute. reflexivity.
  - intros HF. apply Forall_cons in HF as [_ HF]. apply Forall_cons in HF as [[i Hi] _].
    change (sorted_set [-1; 0; 1]) with [-1; 0; 1] in Hi.
    destruct i as [|[|[|i]]]; simpl in Hi; discriminate Hi.
Qed.

Lemma classifier_predict_first_max_witness :
  ∃ preds,
    KernelRidgeClassifier.predict X3 (World fitted_classifier [])
    = (Ok preds, World fitted_classifier (replicate 3 CallSimilarity))
    ∧ Forall2 (λ x p, is_first_max
                 (class_scores (default [] (KernelRidgeClassifier.alpha fitted_classifier))
                    (similarity (linear X3 (q 10)) x)) p) X3 preds.
Proof.
  apply (classifier_predict_first_max fitted_classifier [] (linear X3 (q 10))
           (default [] (KernelRidgeClassifier.alpha fitted_classifier)) X3).
  - vm_compute. reflexivity.
  - vm_compute. reflexivity.
  - vm_compute. discriminate.
  - vm_compute. repeat constructor.
Defined.



(** C5: the binary problem of the scenario [X = [[0],[1],[2],[3]]],
    [y = [0,0,1,1]]. The binarizer returns ONE column; [fit] solves
    for class 0 on it, then raises [IndexError] at [Y[:, 1]]. *)
Theorem binary_fit_raises_index_error :
  (KernelRidgeClassifier.fit X4 [0; 0; 1; 1] (World (classifier "linear") [])).1
  = Raise IndexError
  ∧ trace (KernelRidgeClassifier.fit X4 [0; 0; 1; 1] (World (classifier "linear") [])).2
    = [CallBinarizer; CallKernel "linear"; CallSimilarityMatrix; CallSolve]
  ∧ match fit_transform (R:=Qc) [0; 0; 1; 1] with
    | Ok Y => ncols Y = 1%nat
    | Raise _ => False
    end
  ∧ length <$> KernelRidgeClassifier.alpha
      (self (KernelRidgeClassifier.fit X4 [0; 0; 1; 1] (World (classifier "linear") [])).2)
    = Some 1%nat.
Proof. repeat split; vm_compute; reflexivity. Qed.

Lemma regressor_predict_dot_witness :
  ∃ preds,
    KernelRidgeRegressor.predict X3 (World fitted_regressor [])
    = (Ok preds, World fitted_regressor (replicate 3 CallSimilarity))
    ∧ preds = map (λ x, dot (default [] (KernelRidgeRegressor.alpha fitted_regressor))
                          (similarity (linear X3 (q 10)) x)) X3
    ∧ length preds = 3%nat
    ∧ ∀ i x, X3 !! i = Some x →
             preds !! i
             = Some (dot (default [] (KernelRidgeRegressor.alpha fitted_regressor))
                         (similarity (linear X3 (q 10)) x)).
Proof.
  apply (regressor_predict_dot fitted_regressor [] (linear X3 (q 10))
           (default [] (KernelRidgeRegressor.alpha fitted_regressor)) X3).
  - vm_compute. reflexivity.
  - vm_compute. reflexivity.
  - repeat constructor.
Defined.

(** C8 as stated fails: on a regressor that was never fitted,
    [predict] of an empty sequence returns the empty array. *)
Lemma predict_before_fit_returns_on_empty :
  KernelRidgeRegressor.K (regressor "linear") = None
  ∧ KernelRidgeRegressor.alpha (regressor "linear") = None
  ∧ KernelRidgeRegressor.predict [] (World (regressor "linear") [])
    = (Ok [], World (regressor "linear") [])
  ∧ ¬ (∃ e, (KernelRidgeRegressor.predict [] (World (regressor "linear") [])).1
            = Raise e).
Proof. repeat split. by intros [e He]. Qed.

Lemma predict_before_fit_raises_witness :
  KernelRidgeRegressor.predict X3 (World (regressor "linear") [])
  = (Raise AttributeError, World (regressor "linear") [])
  ∧ KernelRidgeClassifier.predict X3 (World (classifier "linear") [])
    = (Raise AttributeError, World (classifier "linear") [])
  ∧ AugmentedHogsKernelRidgeClassifier.predict X3 (World (augmented "linear") [])
    = (Raise AttributeError, World (augmented "linear") [CallTransform])
  ∧ AugmentedHogsKernelRidgeClassifier.predict [] (World (augmented "linear") [])
    = (Ok [], World (augmented "linear") [CallTransform]).
Proof.
  destruct (predict_before_fit_raises (R:=Qc)) as (Hreg & Hclf & Haug & _ & _ & Hempty).
  split; [|split; [|split]].
  - exact (Hreg (regressor "linear") [] [q 1; q 0; q 0] (tail X3) eq_refl).
  - exact (Hclf (classifier "linear") [] [q 1; q 0; q 0] (tail X3) eq_refl).
  - refine (Haug (augmented "linear") [] X3 eq_refl _). discriminate.
  - exact (Hempty (augmented "linear") [] [] eq_refl).
Defined.

Lemma classifier_predict_index_in_range_witness :
  (∃ preds w',
     KernelRidgeClassifier.predict X3 (World fitted_classifier []) = (Ok preds, w')
     ∧ length preds = 3%nat ∧ Forall (λ p, (p < 3)%nat) preds)
  ∧ (∃ preds w',
     AugmentedHogsKernelRidgeClassifier.predict X3 (World fitted_augmented [])
     = (Ok preds, w')
     ∧ length preds = 3%nat ∧ Forall (λ p, (p < 3)%nat) preds).
Proof.
  destruct (classifier_predict_index_in_range (R:=Qc)) as [Hplain Haug].
  split.
  - destruct (Hplain fitted_classifier [] (linear X3 (q 10))
                (default [] (KernelRidgeClassifier.alpha fitted_classifier)) X3)
      as [Htot Hinv]; [vm_compute; reflexivity..|].
    destruct Htot as (preds & w' & Hrun);
      [vm_compute; discriminate|vm_compute; repeat constructor|].
    exists preds, w'. split; [exact Hrun|]. exact (Hinv preds w' Hrun).
  - destruct (Haug fitted_augmented [] (linear (X3 ++ X3) (q 10))
                (default [] (AugmentedHogsKernelRidgeClassifier.alpha fitted_augmented)) X3)
      as [Htot Hinv]; [vm_compute; reflexivity..|].
    destruct Htot as (preds & w' & Hrun);
      [vm_compute; discriminate|vm_compute; repeat constructor|].
    exists preds, w'. split; [exact Hrun|]. exact (Hinv preds w' Hrun).
Defined.

(** The augmented classifier on [X3], whose augmentation doubles the
    dataset: [fit] augments, extracts, then runs the pipeline on six
    samples; [predict] extracts and scores, and never augments. *)
Example augmented_traces :
  trace (AugmentedHogsKernelRidgeClassifier.fit X3 [0; 1; 2]
           (World (augmented "linear") [])).2
  = [CallAugment; CallTransform; CallBinarizer; CallKernel "linear";
     CallSimilarityMatrix; CallSolve; CallSolve; CallSolve]
  ∧ (AugmentedHogsKernelRidgeClassifier.predict X3 (World fitted_augmented [])).1
    = Ok [0; 1; 2]%nat
  ∧ trace (AugmentedHogsKernelRidgeClassifier.predict X3 (World fitted_augmented [])).2
    = [CallTransform; CallSimilarity; CallSimilarity; CallSimilarity].
Proof. repeat split; vm_compute; reflexivity. Qed.
End DemoRuns.


(** * Further properties of the pipeline *)

(** ** The regularized matrix *)

Section Regularization.
Context {R : Type} `{!Scalar R}.

(** [K += diag] keeps the shape: as many rows, each as long as before. *)
Lemma add_diag_shape (v : R) (K : matrix R) :
  length (add_diag v K) = length K
  ∧ ∀ i row, K !! i = Some row →
             ∃ row', add_diag v K !! i = Some row' ∧ length row' = length row.
Proof.
  unfold add_diag. split; [by rewrite length_imap|].
  intros i row Hrow. rewrite list_lookup_imap, Hrow. simpl.
  eexists. split; [done|]. by rewrite length_imap.
Qed.

(** X1. The diagonal term cannot break symmetry: the regularized matrix of
    a symmetric kernel matrix is symmetric. *)
Theorem add_diag_symmetric (v : R) (K : matrix R) :
  symmetric K → symmetric (add_diag v K).
Proof.
  intros Hsym i j. rewrite !entry_add_diag, (Hsym i j).
  destruct (entry K j i) as [x|]; simpl; [|done].
  unfold diag_entry. by repeat case_decide; subst.
Qed.
End Regularization.

(** ** Dot products under the ring laws *)

Section DotFacts.
Context {R : Type} `{!Scalar R} `{!RingLaws R}.

Lemma r_add_zero_l (a : R) : add zero a = a.
Proof. by rewrite r_add_comm, r_add_zero_r. Qed.

Lemma dot_foldl_acc (l : list (R * R)) (acc : R) :
  foldl (λ acc xy, add acc (mul xy.1 xy.2)) acc l
  = add acc (foldl (λ acc xy, add acc (mul xy.1 xy.2)) zero l).
Proof.
  revert acc. induction l as [|xy l IH]; intros acc; simpl.
  - by rewrite r_add_zero_r.
  - rewrite IH, (IH (add zero _)). by rewrite r_add_zero_l, r_add_assoc.
Qed.

Lemma dot_cons (x y : R) (a b : vector R) :
  dot (x :: a) (y :: b) = add (mul x y) (dot a b).
Proof. unfold dot. simpl. by rewrite dot_foldl_acc, r_add_zero_l. Qed.

Lemma dot_comm (a b : vector R) : dot a b = dot b a.
Proof.
  revert b. induction a as [|x a IH]; intros [|y b]; try done.
  by rewrite !dot_cons, IH, r_mul_comm.
Qed.

(** Adding zero to every entry of a row does not change its products. *)
Lemma dot_imap_zero (h : nat → R) (row a : vector R) :
  (∀ j, h j = zero) →
  dot (imap (λ j x, add x (h j)) row) a = dot row a.
Proof.
  revert h a. induction row as [|x row IH]; intros h a Hh; [done|].
  destruct a as [|y a]; [done|]. simpl. rewrite !dot_cons.
  rewrite Hh, r_add_zero_r. f_equal. apply (IH (h ∘ S)). intros j. apply Hh.
Qed.

(** Row [i] of the regularized matrix against [a]: the product of the
    kernel row plus [v] times the [i]-th coefficient. *)
Lemma dot_diag_row (v : R) (i : nat) (row a : vector R) (ai : R) :
  (i < length row)%nat → a !! i = Some ai →
  dot (imap (λ j x, add x (diag_entry v i j)) row) a
  = add (dot row a) (mul v ai).
Proof.
  revert row a. induction i as [|i IH]; intros [|x row] [|y a] Hlen Hai;
    simpl in *; try done; try lia.
  - injection Hai as ->. rewrite !dot_cons.
    change (imap _ row) with (imap (λ j x, add x ((λ j, diag_entry v 0 (S j)) j)) row).
    rewrite dot_imap_zero by done.
    unfold diag_entry at 1. simpl. rewrite r_mul_add_distr_r.
    rewrite <- !r_add_assoc. f_equal. apply r_add_comm.
  - rewrite !dot_cons. unfold diag_entry at 1. simpl. rewrite r_add_zero_r.
    rewrite <- r_add_assoc. f_equal.
    rewrite <- (IH row a) by (done || lia). f_equal.
    apply imap_ext. intros j z _. simpl. f_equal.
    unfold diag_entry. by repeat case_decide; try lia.
Qed.
End DotFacts.

(** ** Fitting, then predicting on the training samples *)

Section RoundTrip.
Context {R : Type} `{!Scalar R} `{!Externals R} `{!RingLaws R}.
Import KernelRidgeRegressor.

(** The contract of the linear solver: its answer solves the system and
    has one entry per row. *)
Hypothesis solve_sound :
  ∀ (A : matrix R) (b x : vector R), solve A b = Ok x → mat_vec A x = b.
Hypothesis solve_length :
  ∀ (A : matrix R) (b x : vector R), solve A b = Ok x → length x = length A.

(** X2. A regressor fitted on [(X, y)] and asked to predict [X] itself
    answers, for the [i]-th training sample, [y_i - C*N*alpha_i]: the
    prediction plus [C * len(X)] times the [i]-th coefficient is the
    target. (So the smaller [C], the closer the training targets are
    reproduced.) *)
Theorem regressor_training_round_trip
    (s : t R) (tr : list event) (X : list Sample) (y a : vector R)
    (ctor : list Sample → R → Kernel R Sample) :
  kernels !! kernel s = Some ctor →
  let k := ctor X (gamma s) in
  let v := mul (C s) (of_nat (length X)) in
  kernel_consistent X k →
  solve (add_diag v (similarity_matrix k)) y = Ok a →
  ∃ preds w',
    (fit X y ≫= λ _, predict X) (World s tr) = (Ok preds, w')
    ∧ alpha (self w') = Some a
    ∧ length preds = length X ∧ length a = length X ∧ length y = length X
    ∧ ∀ i p ai yi,
        preds !! i = Some p → a !! i = Some ai → y !! i = Some yi →
        add p (mul v ai) = yi.
Proof.
  intros Hreg k v [HlenK Hrows] Hsolve.
  set (A := add_diag v (similarity_matrix k)) in *.
  assert (Hla : length a = length X).
  { rewrite (solve_length _ _ _ Hsolve). unfold A, add_diag. by rewrite length_imap. }
  assert (Hshape : Forall (λ x, length a = length (similarity k x)) X).
  { apply Forall_lookup. intros i x Hx. destruct (Hrows i x Hx) as [_ ->]. done. }
  pose proof (solve_sound _ _ _ Hsolve) as Hsol.
  eexists _, _. split.
  { unfold mbind at 1, M_bind at 1, bind at 1.
    unfold fit. run_method. rewrite Hreg. simpl. fold k v A. rewrite Hsolve.
    unfold predict.
    rewrite (regressor_predict_loop_fitted _ k a X); [reflexivity|done..]. }
  simpl. split; [done|]. split; [by rewrite length_map|]. split; [done|]. split.
  { rewrite <- Hsol. unfold mat_vec, A, add_diag.
    by rewrite length_map, length_imap. }
  intros i p ai yi Hp Hai Hyi.
  rewrite list_lookup_fmap in Hp.
  destruct (X !! i) as [x|] eqn:Hx; [|done]. simpl in Hp. injection Hp as <-.
  destruct (Hrows i x Hx) as [Hrow Hlx].
  rewrite <- Hsol in Hyi. unfold mat_vec in Hyi. rewrite list_lookup_fmap in Hyi.
  unfold A, add_diag in Hyi. rewrite list_lookup_imap, Hrow in Hyi. simpl in Hyi.
  injection Hyi as <-.
  rewrite (dot_diag_row v i (similarity k x) a ai); [|by rewrite Hlx; eapply lookup_lt_Some|done].
  by rewrite (dot_comm a).
Qed.
End RoundTrip.

(** ** What a returning fit has stored *)

Section ClassifierFitReturns.
Context {R : Type} `{!Scalar R} `{!Externals R}.
Import KernelRidgeClassifier.

Lemma classifier_fit_loop_inv (Kmat Y : matrix R) (classes : list label) :
  ∀ (s : t R) (tr : list event) (acc : list (vector R)) (w' : world (t R)),
    alpha s = Some acc →
    fit_loop Kmat Y classes (World s tr) = (Ok tt, w') →
    ∃ sols,
      Forall2 (λ c a, ∃ target, column Y c = Ok target ∧ solve Kmat target = Ok a)
              classes sols
      ∧ w' = World (set_alpha (acc ++ sols) s)
                   (tr ++ replicate (length classes) CallSolve).
Proof.
  induction classes as [|c classes IH]; intros s tr acc w' Hacc; simpl.
  - intros [= <-]. exists []. split; [constructor|].
    by rewrite !app_nil_r, set_alpha_id.
  - run_method. rewrite Hacc. simpl.
    destruct (column Y c) as [target|] eqn:Hc; simpl; [|done].
    destruct (solve Kmat target) as [a|] eqn:Ha; simpl; [|done].
    intros Hrun. apply (IH _ _ (acc ++ [a])) in Hrun as (sols & HF & ->); [|done].
    exists (a :: sols). split; [constructor; eauto|].
    by rewrite set_alpha_set_alpha, <- !app_assoc.
Qed.

(** When [fit] returns, the estimator holds the kernel built from [X]
    and [gamma], and exactly one coefficient vector per distinct
    label, in the order of the sorted labels; the vector of a label is
    the solver's answer on the shared regularized matrix and the column
    of the binarized labels that the label, used as an index, selects. *)
Lemma classifier_fit_inv
    (s : t R) (tr : list event) (X : list Sample) (y : list label)
    (w' : world (t R)) :
  fit X y (World s tr) = (Ok tt, w') →
  ∃ ctor Y alphas,
    kernels !! kernel s = Some ctor
    ∧ fit_transform y = Ok Y
    ∧ w' = World (set_alpha alphas (set_K (ctor X (gamma s)) s))
                 (tr ++ [CallBinarizer; CallKernel (kernel s); CallSimilarityMatrix]
                     ++ replicate (length (sorted_set y)) CallSolve)
    ∧ length alphas = length (sorted_set y)
    ∧ Forall2 (λ c a, ∃ target,
                 column Y c = Ok target
                 ∧ solve (add_diag (mul (C s) (of_nat (length X)))
                            (similarity_matrix (ctor X (gamma s)))) target = Ok a)
              (sorted_set y) alphas.
Proof.
  unfold fit. run_method.
  destruct (fit_transform y) as [Y|] eqn:HY; simpl; [|done].
  destruct (kernels !! kernel s) as [ctor|] eqn:Hreg; simpl; [|done].
  destruct (fit_loop _ _ _ _) as [[[]|e] w1] eqn:Hloop; simpl; [|done].
  apply (classifier_fit_loop_inv _ _ _ _ _ []) in Hloop as (sols & HF & ->); [|done].
  simpl. intros [= <-]. exists ctor, Y, sols.
  split; [done|]. split; [done|]. split.
  - by rewrite <- !app_assoc.
  - split; [|done]. symmetry. by eapply Forall2_length.
Qed.

(** X3. [fit] starts from the hyperparameters alone: what an earlier [fit]
    left in the estimator changes neither the outcome, nor the calls,
    nor (when [fit] returns) the model that is stored. *)
Theorem fit_forgets_previous_model :
  (∀ (s : KernelRidgeRegressor.t R) tr X y,
     let r := KernelRidgeRegressor.fit X y (World s tr) in
     let r0 := KernelRidgeRegressor.fit X y (World (regressor_reset s) tr) in
     r.1 = r0.1 ∧ trace r.2 = trace r0.2 ∧ (r.1 = Ok tt → self r.2 = self r0.2))
  ∧ (∀ (s : t R) tr X y,
     let r := fit X y (World s tr) in
     let r0 := fit X y (World (classifier_reset s) tr) in
     r.1 = r0.1 ∧ trace r.2 = trace r0.2 ∧ (r.1 = Ok tt → self r.2 = self r0.2)).
Proof.
  split.
  - intros s tr X y. unfold KernelRidgeRegressor.fit. run_method.
    destruct (kernels !! KernelRidgeRegressor.kernel s) as [ctor|]; simpl; [|done].
    destruct (solve _ y) as [a|]; simpl; done.
  - intros s tr X y. unfold fit. run_method.
    destruct (fit_transform y) as [Y|]; simpl; [|done].
    destruct (kernels !! kernel s) as [ctor|]; simpl; [|done].
    change (set_alpha [] (set_K (ctor X (gamma s)) (classifier_reset s)))
      with (set_alpha [] (set_K (ctor X (gamma s)) s)).
    destruct (fit_loop _ _ _ _) as [[[]|e] w1]; simpl; [|done].
    by destruct (alpha (self w1)).
Qed.
End ClassifierFitReturns.

(** ** Labels as column indices *)

Lemma np_index_inv (n : nat) (c : Z) (j : nat) :
  np_index n c = Ok j →
  - Z.of_nat n ≤ c < Z.of_nat n ∧ (j < n)%nat ∧ j = Z.to_nat (c `mod` Z.of_nat n).
Proof.
  unfold np_index. repeat case_decide; intros [= <-].
  - rewrite Z.mod_small by lia. lia.
  - replace (c `mod` Z.of_nat n) with (c + Z.of_nat n); [lia|].
    apply Z.mod_unique with (q := -1); lia.
Qed.

Lemma sorted_set_NoDup (y : list label) : NoDup (sorted_set y).
Proof.
  unfold sorted_set. rewrite merge_sort_Permutation. apply NoDup_remove_dups.
Qed.

Section Wrap.
Context {R : Type} `{!Scalar R} `{!Externals R}.
Import KernelRidgeClassifier.

Lemma fit_transform_many (y : list label) :
  (3 ≤ length (sorted_set y))%nat →
  fit_transform (R:=R) y
  = Ok (map (λ l, map (λ c, if decide (l = c) then pos_label else neg_label)
                      (sorted_set y)) y)
    ∧ y ≠ [].
Proof.
  intros Hk. unfold fit_transform. destruct y as [|l y]; [simpl in Hk; lia|].
  split; [|done]. by destruct (sorted_set (l :: y)) as [|? [|? [|? ?]]]; simpl in Hk; try lia.
Qed.

Lemma column_many_inv (y classes : list label) (c : label) (target : vector R) :
  y ≠ [] →
  column (map (λ l, map (λ c, if decide (l = c) then pos_label else neg_label) classes) y) c
  = Ok target →
  - Z.of_nat (length classes) ≤ c < Z.of_nat (length classes)
  ∧ ∃ c', classes !! Z.to_nat (c `mod` Z.of_nat (length classes)) = Some c'
          ∧ target = one_vs_all y c'.
Proof.
  intros Hy. unfold column.
  replace (ncols _) with (length classes)
    by (destruct y; [done|]; simpl; by rewrite length_map).
  destruct (np_index _ c) as [j|] eqn:Hj; [|done]. intros [= <-].
  apply np_index_inv in Hj as (Hc & Hlt & ->). split; [done|].
  destruct (lookup_lt_is_Some_2 classes _ Hlt) as [c' Hc'].
  exists c'. split; [done|]. unfold one_vs_all. rewrite map_map.
  apply map_ext. intros l. by rewrite list_lookup_fmap, Hc'.
Qed.

(** X4. With three classes or more, a returning [fit] has found every label
    in [-k, k), and the coefficient vector stored at position [i]
    answers the one-vs-all problem of the class at position [c mod k],
    where [c] is the [i]-th sorted label: the [i]-th class itself
    exactly when [c mod k = i]. *)
Theorem classifier_fit_columns_wrap
    (s : t R) (tr : list event) (X : list Sample) (y : list label)
    (w' : world (t R)) :
  let k := length (sorted_set y) in
  (3 ≤ k)%nat →
  fit X y (World s tr) = (Ok tt, w') →
  ∃ ctor alphas,
    kernels !! kernel s = Some ctor
    ∧ alpha (self w') = Some alphas
    ∧ ∀ i c, sorted_set y !! i = Some c →
        - Z.of_nat k ≤ c < Z.of_nat k
        ∧ ∃ c' a,
            sorted_set y !! Z.to_nat (c `mod` Z.of_nat k) = Some c'
            ∧ alphas !! i = Some a
            ∧ solve (add_diag (mul (C s) (of_nat (length X)))
                       (similarity_matrix (ctor X (gamma s))))
                    (one_vs_all y c') = Ok a
            ∧ (c' = c ↔ Z.to_nat (c `mod` Z.of_nat k) = i).
Proof.
  intros k Hk Hfit.
  destruct (fit_transform_many y Hk) as [HY Hne].
  apply classifier_fit_inv in Hfit as (ctor & Y & alphas & Hreg & HY' & -> & Hlen & HF).
  rewrite HY in HY'. injection HY' as <-.
  exists ctor, alphas. split; [done|]. split; [done|].
  intros i c Hc.
  destruct (Forall2_lookup_l _ _ _ _ _ HF Hc) as (a & Ha & target & Hcol & Hsol).
  apply column_many_inv in Hcol as (Hrange & c' & Hc' & ->); [|done].
  split; [done|]. exists c', a. split; [done|]. split; [done|]. split; [done|].
  split.
  - intros ->. by eapply NoDup_lookup; [apply (sorted_set_NoDup y)|..].
  - intros Hi. unfold k in Hi. rewrite Hi in Hc'. unfold label in *. congruence.
Qed.

(** X5. After a returning [fit], [predict] answers only positions below the
    number of distinct training labels, one per sample. *)
Theorem classifier_fit_then_predict_below_class_count
    (s : t R) (tr : list event) (X : list Sample) (y : list label)
    (w' : world (t R)) (Xnew : list Sample) (preds : list nat) (w'' : world (t R)) :
  fit X y (World s tr) = (Ok tt, w') →
  predict Xnew w' = (Ok preds, w'') →
  length preds = length Xnew
  ∧ Forall (λ p, (p < length (sorted_set y))%nat) preds
  ∧ self w'' = self w'.
Proof.
  intros Hfit Hpred.
  apply classifier_fit_inv in Hfit as (ctor & Y & alphas & _ & _ & -> & Hlen & _).
  apply (classifier_predict_loop_inv _ (ctor X (gamma s)) alphas) in Hpred
    as (preds' & -> & -> & HF); [|done..].
  simpl. split; [symmetry; by eapply Forall2_length|]. split; [|done].
  rewrite <- Hlen. clear -HF.
  induction HF as [|x p Xn ps Hp _ IH]; constructor; [|done].
  apply np_argmax_lt in Hp. unfold class_scores in Hp. by rewrite length_map in Hp.
Qed.
End Wrap.

(** ** Two classes, one class *)

Section FewClasses.
Context {R : Type} `{!Scalar R} `{!Externals R}.
Import KernelRidgeClassifier.

(** A score is never below itself. *)
Hypothesis ltb_irreflexive : ∀ a : R, ltb a a = false.

Lemma argmax_from_all_equal (d : R) (n i : nat) :
  argmax_from d 0 i (replicate n d) = 0%nat.
Proof.
  revert i. induction n as [|n IH]; intros i; simpl; [done|].
  by rewrite ltb_irreflexive.
Qed.

Lemma classifier_predict_equal_vectors (s : t R) (k : Kernel R Sample)
    (a : vector R) (n : nat) (X : list Sample) (tr : list event) :
  K s = Some k → alpha s = Some (replicate (S n) a) →
  Forall (λ x, length a = length (similarity k x)) X →
  (predict X (World s tr)).1 = Ok (replicate (length X) 0%nat).
Proof.
  intros HK Ha Hshape.
  destruct (classifier_predict_loop_total s k (replicate (S n) a) X HK Ha) with
    (acc := @nil nat) (tr := tr) as (out & w' & Hrun); [done| |].
  { eapply Forall_impl; [exact Hshape|]. intros x Hx. by apply Forall_replicate. }
  unfold predict. rewrite Hrun. simpl. f_equal.
  apply (classifier_predict_loop_inv s k _ X HK Ha) in Hrun as (preds & -> & _ & HF).
  simpl. clear -HF ltb_irreflexive.
  induction HF as [|x p X preds Hp _ IH]; simpl; [done|]. f_equal; [|done].
  unfold class_scores in Hp. rewrite fmap_replicate in Hp. simpl in Hp.
  injection Hp as <-. apply argmax_from_all_equal.
Qed.

(** X6. A two-class training set. [fit] returns only when the two labels
    are -1 and 0; the two coefficient vectors it stores are then the
    same vector, and [predict] answers 0 for every well-shaped
    sample. *)
Theorem binary_fit_predicts_zero
    (s : t R) (tr : list event) (X : list Sample) (y : list label)
    (c0 c1 : label) (w' : world (t R)) :
  sorted_set y = [c0; c1] →
  fit X y (World s tr) = (Ok tt, w') →
  c0 = -1 ∧ c1 = 0
  ∧ ∃ k a, K (self w') = Some k ∧ alpha (self w') = Some [a; a]
            ∧ ∀ Xnew, Forall (λ x, length a = length (similarity k x)) Xnew →
                      (predict Xnew w').1 = Ok (replicate (length Xnew) 0%nat).
Proof.
  intros Hy Hfit.
  destruct (classifier_fit_binary s tr X y c0 c1 w' Hy Hfit) as (-> & -> & a & Ha).
  split; [done|]. split; [done|].
  apply classifier_fit_inv in Hfit as (ctor & _ & alphas & _ & _ & -> & _ & _).
  simpl in *. exists (ctor X (gamma s)), a. split; [done|]. split; [done|].
  intros Xnew Hshape.
  by apply (classifier_predict_equal_vectors _ (ctor X (gamma s)) a 1).
Qed.

(** X7. A single-class training set. [fit] returns only when the label is
    0 or -1, and the one coefficient vector it stores answers the
    target that is -1 everywhere; [predict] then answers 0. *)
Theorem single_class_fit_predicts_zero
    (s : t R) (tr : list event) (X : list Sample) (y : list label)
    (c : label) (w' : world (t R)) :
  sorted_set y = [c] →
  fit X y (World s tr) = (Ok tt, w') →
  (c = 0 ∨ c = -1)
  ∧ ∃ ctor a,
      kernels !! kernel s = Some ctor
      ∧ K (self w') = Some (ctor X (gamma s))
      ∧ alpha (self w') = Some [a]
      ∧ solve (add_diag (mul (C s) (of_nat (length X)))
                 (similarity_matrix (ctor X (gamma s))))
              (map (λ _, neg_label) y) = Ok a
      ∧ ∀ Xnew, Forall (λ x, length a = length (similarity (ctor X (gamma s)) x)) Xnew →
                (predict Xnew w').1 = Ok (replicate (length Xnew) 0%nat).
Proof.
  intros Hy Hfit.
  apply classifier_fit_inv in Hfit as (ctor & Y & alphas & Hreg & HY & -> & _ & HF).
  rewrite Hy in HF. apply Forall2_cons_inv_l in HF as (a & rest & (t & Hcol & Hsol) & Hrest & ->).
  apply Forall2_nil_inv_l in Hrest as ->.
  unfold fit_transform in HY. rewrite Hy in HY.
  destruct y as [|l y]; [done|]. injection HY as <-.
  unfold column in Hcol. simpl in Hcol.
  destruct (np_index 1 c) as [j|] eqn:Hj; [|done].
  apply np_index_inv in Hj as (Hc & Hj & ->). injection Hcol as <-.
  assert (Hc' : c = 0 ∨ c = -1) by lia. split; [done|].
  exists ctor, a. split; [done|]. split; [done|]. split; [done|]. split.
  - rewrite <- Hsol. f_equal.
    replace (Z.to_nat (c `mod` Z.of_nat 1)) with 0%nat by (destruct Hc' as [-> | ->]; done).
    simpl. f_equal. rewrite map_map. by apply map_ext.
  - intros Xnew Hshape.
    by apply (classifier_predict_equal_vectors _ (ctor X (gamma s)) a 0).
Qed.
End FewClasses.

(** ** Error paths *)

Section ErrorPaths.
Context {R : Type} `{!Scalar R} `{!Externals R}.

(** X8. An empty label vector is rejected by the binarizer before anything
    else happens: [ValueError], whatever the kernel name, no kernel
    built, the estimator untouched. In the augmented classifier this
    is decided on the labels the augmentation returns. *)
Theorem classifier_fit_empty_labels :
  (∀ (s : KernelRidgeClassifier.t R) tr X,
     KernelRidgeClassifier.fit X [] (World s tr)
     = (Raise ValueError, World s (tr ++ [CallBinarizer])))
  ∧ (∀ (s : AugmentedHogsKernelRidgeClassifier.t R) tr X y,
     (augment_dataset X y
        (AugmentedHogsKernelRidgeClassifier.flip_ratio s)
        (AugmentedHogsKernelRidgeClassifier.rot_replicas s)
        (AugmentedHogsKernelRidgeClassifier.rot_ratio s)
        (AugmentedHogsKernelRidgeClassifier.rot_angle s)).2 = [] →
     AugmentedHogsKernelRidgeClassifier.fit X y (World s tr)
     = (Raise ValueError, World s (tr ++ [CallAugment; CallTransform; CallBinarizer]))).
Proof.
  split.
  - intros s tr X. unfold KernelRidgeClassifier.fit. by run_method.
  - intros s tr X y Hy. unfold AugmentedHogsKernelRidgeClassifier.fit. run_method.
    rewrite Hy. simpl. by rewrite <- !app_assoc.
Qed.

(** X9. The first sample whose similarity vector has not the length of
    [alpha] stops [predict] with [ValueError]: the predictions made so
    far are not returned, the estimator is unchanged, and no later
    sample is looked at. *)
Theorem regressor_predict_shape_mismatch
    (s : KernelRidgeRegressor.t R) (tr : list event) (k : Kernel R Sample)
    (a : vector R) (X1 : list Sample) (x : Sample) (X2 : list Sample) :
  KernelRidgeRegressor.K s = Some k → KernelRidgeRegressor.alpha s = Some a →
  Forall (λ x, length a = length (similarity k x)) X1 →
  length a ≠ length (similarity k x) →
  KernelRidgeRegressor.predict (X1 ++ x :: X2) (World s tr)
  = (Raise ValueError, World s (tr ++ replicate (S (length X1)) CallSimilarity)).
Proof.
  intros HK Ha HX1 Hx. unfold KernelRidgeRegressor.predict. generalize (@nil R).
  revert tr. induction HX1 as [|x1 X1 Hx1 _ IH]; intros tr acc; simpl.
  - run_method. rewrite HK. simpl. rewrite Ha. simpl.
    unfold np_dot. by rewrite decide_False.
  - run_method. rewrite HK. simpl. rewrite Ha. simpl.
    rewrite (np_dot_ok _ _ Hx1). rewrite IH. by rewrite <- app_assoc.
Qed.

(** X10. A regressor whose first [fit] failed in the solver holds a kernel
    but no coefficients, and a classifier whose [fit] failed at its
    first class holds a kernel and an empty coefficient list. On such
    estimators [predict] of a non-empty input raises, [TypeError] for
    the regressor and [ValueError] for the classifier, after one
    similarity call. *)
Theorem predict_on_half_fitted :
  (∀ (s : KernelRidgeRegressor.t R) tr X y ctor e,
     kernels !! KernelRidgeRegressor.kernel s = Some ctor →
     KernelRidgeRegressor.alpha s = None →
     solve (add_diag (mul (KernelRidgeRegressor.C s) (of_nat (length X)))
              (similarity_matrix (ctor X (KernelRidgeRegressor.gamma s)))) y
     = Raise e →
     let s1 := KernelRidgeRegressor.set_K (ctor X (KernelRidgeRegressor.gamma s)) s in
     KernelRidgeRegressor.fit X y (World s tr)
     = (Raise e,
        World s1 (tr ++ [CallKernel (KernelRidgeRegressor.kernel s);
                         CallSimilarityMatrix; CallSolve]))
     ∧ ∀ tr1 x Xnew,
         KernelRidgeRegressor.predict (x :: Xnew) (World s1 tr1)
         = (Raise TypeError, World s1 (tr1 ++ [CallSimilarity])))
  ∧ (∀ (s : KernelRidgeClassifier.t R) tr k x Xnew,
     KernelRidgeClassifier.K s = Some k →
     KernelRidgeClassifier.alpha s = Some [] →
     KernelRidgeClassifier.predict (x :: Xnew) (World s tr)
     = (Raise ValueError, World s (tr ++ [CallSimilarity]))).
Proof.
  split.
  - intros s tr X y ctor e Hreg Ha Hsolve s1. split.
    + unfold KernelRidgeRegressor.fit. run_method. rewrite Hreg. simpl.
      rewrite Hsolve. by rewrite <- !app_assoc.
    + intros tr1 x Xnew. unfold KernelRidgeRegressor.predict. simpl. run_method.
      by rewrite Ha.
  - intros s tr k x Xnew HK Ha. unfold KernelRidgeClassifier.predict. simpl.
    run_method. rewrite HK. simpl. by rewrite Ha.
Qed.
End ErrorPaths.

(** ** A label that is no column *)

Section IndexError.
Context {R : Type} `{!Scalar R} `{!Externals R}.
Import KernelRidgeClassifier.


End IndexError.

(** ** The classifier never holds a kernel without coefficients *)

Section ClassifierInvariant.
Context {R : Type} `{!Scalar R} `{!Externals R}.
Import KernelRidgeClassifier.

Lemma classifier_fit_loop_has_model (Kmat Y : matrix R) (classes : list label) :
  ∀ (s : t R) (tr : list event),
    is_Some (K s) → is_Some (alpha s) →
    let w' := (fit_loop Kmat Y classes (World s tr)).2 in
    is_Some (K (self w')) ∧ is_Some (alpha (self w')).
Proof.
  induction classes as [|c classes IH]; intros s tr HK Ha; simpl; [done|].
  run_method. destruct Ha as [acc Hacc]. rewrite Hacc. simpl.
  destruct (column Y c) as [target|]; simpl; [|by rewrite Hacc].
  destruct (solve Kmat target) as [a|]; simpl; [|by rewrite Hacc].
  by apply IH.
Qed.

Lemma classifier_predict_no_type_error (X : list Sample) :
  ∀ (s : t R) (tr : list event) (acc : list nat),
    classifier_model_inv s →
    (predict_loop X acc (World s tr)).1 ≠ Raise TypeError.
Proof.
  induction X as [|x X IH]; intros s tr acc Hinv; simpl; [done|].
  run_method. destruct (K s) as [k|] eqn:HK; simpl; [|done].
  destruct Hinv as [alphas Ha]; [by rewrite HK|]. rewrite Ha. simpl.
  destruct (scores alphas (similarity k x)) as [ds|e] eqn:Hds; simpl.
  - destruct (np_argmax ds) as [p|e] eqn:Hp; simpl.
    + apply IH. unfold classifier_model_inv. rewrite Ha. eauto.
    + destruct ds; simpl in Hp; [|done]. by injection Hp as <-.
  - clear -Hds. revert e Hds. induction alphas as [|a alphas IHa]; intros e; simpl; [done|].
    unfold np_dot. case_decide.
    + destruct (scores alphas (similarity k x)); [done|]. intros [= <-]. by eapply IHa.
    + by intros [= <-].
Qed.

(** X12. Every run of [fit], returning or raising, takes a classifier that
    holds no kernel without a coefficient list to another such
    classifier; the constructor makes one; and on such a classifier
    [predict] never raises [TypeError] (it raises [AttributeError]
    before any [fit], [ValueError] on an ill-shaped sample or an empty
    coefficient list, or returns). *)
Theorem classifier_model_invariant :
  (∀ C0 name g s, __init__ C0 name g = Ok s → classifier_model_inv s)
  ∧ (∀ (s : t R) tr X y,
       classifier_model_inv s →
       classifier_model_inv (self (fit X y (World s tr)).2))
  ∧ (∀ (s : t R) tr X,
       classifier_model_inv s →
       (predict X (World s tr)).1 ≠ Raise TypeError).
Proof.
  split; [|split].
  - intros C0 name g s [= <-]. intros [k Hk]. done.
  - intros s tr X y Hinv. unfold fit. run_method.
    destruct (fit_transform y) as [Y|]; simpl; [|done].
    destruct (kernels !! kernel s) as [ctor|]; simpl; [|done].
    match goal with |- context [fit_loop ?A ?Y ?cs ?w] =>
      pose proof (classifier_fit_loop_has_model A Y cs (self w) (trace w)) as Hloop;
      destruct (fit_loop A Y cs w) as [[[]|e] w1] eqn:Hrun end.
    + simpl in *. rewrite Hrun in Hloop. simpl in Hloop.
      destruct Hloop as [HK [acc Ha]]; [by eexists..|]. rewrite Ha. simpl.
      intros _. by eexists.
    + simpl in *. rewrite Hrun in Hloop. simpl in Hloop.
      destruct Hloop as [HK Ha]; [by eexists..|]. by intros _.
  - intros s tr X Hinv. by apply classifier_predict_no_type_error.
Qed.
End ClassifierInvariant.

(** ** What a returning fit of the augmented classifier has stored *)

Section AugmentedFitReturns.
Context {R : Type} `{!Scalar R} `{!Externals R}.
Import AugmentedHogsKernelRidgeClassifier.

(** X13. When [fit] of the augmented classifier returns, the kernel it holds
    was built from the feature vectors of the AUGMENTED samples, the
    diagonal term of every system was [C] times the number of those
    feature vectors (not [len] of the input), and there is one
    coefficient vector per distinct AUGMENTED label. *)
Theorem augmented_fit_returns_inv
    (s : t R) (tr : list event) (X : list Image) (y : list label) (w' : world (t R)) :
  let Xy := augment_dataset X y (flip_ratio s) (rot_replicas s) (rot_ratio s) (rot_angle s) in
  let F := transform (hog_extractor s) Xy.1 in
  fit X y (World s tr) = (Ok tt, w') →
  ∃ ctor Y alphas,
    kernels !! kernel s = Some ctor
    ∧ fit_transform Xy.2 = Ok Y
    ∧ K (self w') = Some (ctor F (gamma s))
    ∧ alpha (self w') = Some alphas
    ∧ config (self w') = config s
    ∧ length alphas = length (sorted_set Xy.2)
    ∧ Forall2 (λ c a, ∃ target,
                 column Y c = Ok target
                 ∧ solve (add_diag (mul (C s) (of_nat (length F)))
                            (similarity_matrix (ctor F (gamma s)))) target = Ok a)
              (sorted_set Xy.2) alphas
    ∧ trace w' = tr ++ [CallAugment; CallTransform; CallBinarizer;
                        CallKernel (kernel s); CallSimilarityMatrix]
                    ++ replicate (length (sorted_set Xy.2)) CallSolve.
Proof.
  intros Xy F Hfit.
  pose proof (augmented_fit_plain X y s tr) as Hsim. cbv zeta in Hsim.
  fold Xy in Hsim. fold F in Hsim. rewrite Hfit in Hsim.
  destruct (KernelRidgeClassifier.fit F Xy.2 _) as [r w1] eqn:Hplain.
  simpl in Hsim. injection Hsim as <- ->.
  apply classifier_fit_inv in Hplain as (ctor & Y & alphas & Hreg & HY & -> & Hlen & HF).
  exists ctor, Y, alphas. simpl. repeat split; try done.
  by rewrite <- !app_assoc.
Qed.
End AugmentedFitReturns.

(** * The further properties on explicit inputs *)

Section DemoLaws.
Import Demo.
Local Open Scope Qc_scope.

#[export] Instance Qc_ring_laws : RingLaws Qc.
Proof.
  split; simpl.
  - apply Qcplus_comm.
  - apply Qcplus_assoc.
  - apply Qcplus_0_r.
  - apply Qcmult_comm.
  - apply Qcmult_plus_distr_l.
Qed.

Lemma Qc_ltb_irreflexive (a : Qc) : ltb a a = false.
Proof. apply ltb_irrefl. Qed.

Lemma gauss_length (n : nat) :
  ∀ rows xs, gauss n rows = Ok xs → length xs = n.
Proof.
  induction n as [|n IH]; intros rows xs; simpl.
  - destruct rows; [|done]. by intros [= <-].
  - destruct rows as [|[[|p r1] b1] rest]; try done.
    case_bool_decide; [|done].
    destruct (gauss n _) as [xs'|] eqn:Hg; [|done].
    intros [= <-]. simpl. f_equal. by eapply IH.
Qed.

Lemma solve_pos_length (A : matrix Qc) (b x : vector Qc) :
  solve A b = Ok x → length x = length A.
Proof.
  simpl. unfold solve_pos. case_decide; [|done].
  destruct (gauss _ _) as [x'|] eqn:Hg; [|done].
  case_decide; [|done]. intros [= <-]. by eapply gauss_length.
Qed.

Lemma linear_consistent (X : list (list Qc)) (g : Qc) :
  kernel_consistent (R:=Qc) X (linear X g).
Proof.
  split; simpl; [by rewrite length_map|].
  intros i x Hx. rewrite list_lookup_fmap, Hx. simpl.
  split; [done|]. by rewrite length_map.
Qed.

Lemma linear_symmetric (X : list (list Qc)) (g : Qc) :
  symmetric (similarity_matrix (linear X g)).
Proof.
  intros i j. unfold entry. simpl. rewrite !list_lookup_fmap.
  destruct (X !! i) as [xi|] eqn:Hi, (X !! j) as [xj|] eqn:Hj; simpl;
    rewrite ?list_lookup_fmap, ?Hi, ?Hj; simpl; try done.
  by rewrite dot_comm.
Qed.
End DemoLaws.

Section DemoMoreRuns.
Import Demo DemoExtra.

Lemma add_diag_symmetric_witness :
  symmetric (similarity_matrix (linear X3 (q 10))) ∧ symmetric A3.
Proof.
  split; [apply linear_symmetric|].
  apply (add_diag_symmetric (mul (q 1) (of_nat 3)) (similarity_matrix (linear X3 (q 10)))).
  apply linear_symmetric.
Defined.

(** [X3] with the targets 4, 8, 12 and [C = 1]: the coefficients are
    1, 2, 3, the predictions on [X3] are 1, 2, 3, and
    [1 + 3*1 = 4], [2 + 3*2 = 8], [3 + 3*3 = 12]. *)
Lemma regressor_training_round_trip_witness :
  ∃ preds w',
    (KernelRidgeRegressor.fit X3 [q 4; q 8; q 12] ≫= λ _, KernelRidgeRegressor.predict X3)
      (World (regressor "linear") [])
    = (Ok preds, w')
    ∧ KernelRidgeRegressor.alpha (self w') = Some (value_of (solve A3 [q 4; q 8; q 12]))
    ∧ length preds = 3%nat
    ∧ length (value_of (solve A3 [q 4; q 8; q 12])) = 3%nat
    ∧ length [q 4; q 8; q 12] = 3%nat
    ∧ ∀ i p ai yi,
        preds !! i = Some p →
        value_of (solve A3 [q 4; q 8; q 12]) !! i = Some ai →
        [q 4; q 8; q 12] !! i = Some yi →
        add p (mul (mul (q 1) (of_nat 3)) ai) = yi.
Proof.
  apply (regressor_training_round_trip solve_pos_sound solve_pos_length
           (regressor "linear") [] X3 [q 4; q 8; q 12]
           (value_of (solve A3 [q 4; q 8; q 12])) linear linear_registered).
  - apply linear_consistent.
  - vm_compute. reflexivity.
Defined.

Lemma fit_forgets_previous_model_witness :
  let r := KernelRidgeRegressor.fit X3 [q 4; q 8; q 12] (World fitted_regressor []) in
  let r0 := KernelRidgeRegressor.fit X3 [q 4; q 8; q 12]
              (World (regressor_reset fitted_regressor) []) in
  r.1 = r0.1 ∧ trace r.2 = trace r0.2 ∧ (r.1 = Ok tt → self r.2 = self r0.2).
Proof.
  exact (proj1 fit_forgets_previous_model fitted_regressor [] X3 [q 4; q 8; q 12]).
Defined.

(** Labels -1, 0, 1: the vector stored first answers the class at
    position [-1 mod 3 = 2], the class 1. *)
Lemma classifier_fit_columns_wrap_witness :
  ∃ ctor alphas,
    (kernels : gmap string _) !! "linear" = Some ctor
    ∧ KernelRidgeClassifier.alpha
        (self (KernelRidgeClassifier.fit X3 [-1; 0; 1] (World (classifier "linear") [])).2)
      = Some alphas
    ∧ ∀ i c, sorted_set [-1; 0; 1] !! i = Some c →
        - Z.of_nat (length (sorted_set [-1; 0; 1])) ≤ c
          < Z.of_nat (length (sorted_set [-1; 0; 1]))
        ∧ ∃ c' a,
            sorted_set [-1; 0; 1]
              !! Z.to_nat (c `mod` Z.of_nat (length (sorted_set [-1; 0; 1]))) = Some c'
            ∧ alphas !! i = Some a
            ∧ solve (add_diag (mul (q 1) (of_nat (length X3)))
                       (similarity_matrix (ctor X3 (q 10))))
                    (one_vs_all [-1; 0; 1] c') = Ok a
            ∧ (c' = c
               ↔ Z.to_nat (c `mod` Z.of_nat (length (sorted_set [-1; 0; 1]))) = i).
Proof.
  apply (classifier_fit_columns_wrap (classifier "linear") [] X3 [-1; 0; 1]).
  - vm_compute. lia.
  - apply surjective_pairing_run. vm_compute. reflexivity.
Defined.

Lemma classifier_fit_then_predict_below_class_count_witness :
  length [0; 1; 2]%nat = length X3
  ∧ Forall (λ p, (p < length (sorted_set [0; 1; 2]%Z))%nat) [0; 1; 2]%nat.
Proof.
  destruct (classifier_fit_then_predict_below_class_count (Externals0:=externals)
              (classifier "linear") [] X3 [0; 1; 2]
              (KernelRidgeClassifier.fit (Externals0:=externals) X3 [0; 1; 2]
                 (World (classifier "linear") [])).2
              X3 [0; 1; 2]%nat
              (KernelRidgeClassifier.predict (Externals0:=externals) X3
                 (KernelRidgeClassifier.fit (Externals0:=externals) X3 [0; 1; 2]
                    (World (classifier "linear") [])).2).2)
    as (Hlen & Hlt & _).
  - apply surjective_pairing_run. vm_compute. reflexivity.
  - apply surjective_pairing_run. vm_compute. reflexivity.
  - split; [exact Hlen|exact Hlt].
Defined.

(** Labels -1, 0 on three samples: [fit] returns, and [predict]
    answers 0 three times. *)
Lemma binary_fit_predicts_zero_witness :
  ∃ k a,
    KernelRidgeClassifier.K
      (self (KernelRidgeClassifier.fit X3 [-1; 0; -1] (World (classifier "linear") [])).2)
    = Some k
    ∧ KernelRidgeClassifier.alpha
        (self (KernelRidgeClassifier.fit X3 [-1; 0; -1] (World (classifier "linear") [])).2)
      = Some [a; a]
    ∧ (KernelRidgeClassifier.predict X3
         (KernelRidgeClassifier.fit X3 [-1; 0; -1] (World (classifier "linear") [])).2).1
      = Ok [0; 0; 0]%nat.
Proof.
  destruct (binary_fit_predicts_zero (Externals0:=externals) Qc_ltb_irreflexive
              (classifier "linear") [] X3 [-1; 0; -1] (-1) 0
              (KernelRidgeClassifier.fit (Externals0:=externals) X3 [-1; 0; -1]
                 (World (classifier "linear") [])).2)
    as (_ & _ & k & a & HK & Ha & Hpred).
  - vm_compute. reflexivity.
  - apply surjective_pairing_run. vm_compute. reflexivity.
  - exists k, a. split; [exact HK|]. split; [exact Ha|].
    apply (Hpred X3). vm_compute in HK. injection HK as <-.
    vm_compute in Ha. injection Ha as <-. vm_compute. repeat constructor.
Defined.

Lemma single_class_fit_predicts_zero_witness :
  ∃ a,
    KernelRidgeClassifier.alpha
      (self (KernelRidgeClassifier.fit X3 [0; 0; 0] (World (classifier "linear") [])).2)
    = Some [a]
    ∧ solve A3 (map (λ _, neg_label) [0; 0; 0]) = Ok a.
Proof.
  destruct (single_class_fit_predicts_zero (Externals0:=externals) Qc_ltb_irreflexive
              (classifier "linear") [] X3 [0; 0; 0] 0
              (KernelRidgeClassifier.fit (Externals0:=externals) X3 [0; 0; 0]
                 (World (classifier "linear") [])).2)
    as (_ & ctor & a & Hreg & _ & Ha & Hsol & _).
  - vm_compute. reflexivity.
  - apply surjective_pairing_run. vm_compute. reflexivity.
  - exists a. split; [exact Ha|].
    assert (Hc : Some ctor = Some linear) by (rewrite <- Hreg; exact linear_registered).
    injection Hc as ->. exact Hsol.
Defined.

Lemma classifier_fit_empty_labels_witness :
  KernelRidgeClassifier.fit X3 [] (World (classifier "sigmoid") [])
  = (Raise ValueError, World (classifier "sigmoid") [CallBinarizer])
  ∧ AugmentedHogsKernelRidgeClassifier.fit X3 [] (World (augmented "linear") [])
    = (Raise ValueError,
       World (augmented "linear") [CallAugment; CallTransform; CallBinarizer]).
Proof.
  destruct (classifier_fit_empty_labels (R:=Qc)) as [Hplain Haug]. split.
  - exact (Hplain (classifier "sigmoid") [] X3).
  - exact (Haug (augmented "linear") [] X3 [] eq_refl).
Defined.

(** [alpha] has two entries; the second sample has one. *)
Lemma regressor_predict_shape_mismatch_witness :
  KernelRidgeRegressor.predict
    ([[q 1; q 0]] ++ [q 1] :: [[q 0; q 1]]) (World echo_regressor [])
  = (Raise ValueError, World echo_regressor (replicate 2 CallSimilarity)).
Proof.
  apply (regressor_predict_shape_mismatch (Externals0:=externals) echo_regressor []
           echo_kernel [q 1; q 2] [[q 1; q 0]] [q 1] [[q 0; q 1]]).
  - reflexivity.
  - reflexivity.
  - repeat constructor.
  - simpl. discriminate.
Defined.

(** [fit(X3, [1])]: the solver rejects a target of the wrong length;
    [fit(X3, [3, 4, 5])]: no column for the first class. *)
Lemma predict_on_half_fitted_witness :
  (KernelRidgeRegressor.fit X3 [q 1] (World (regressor "linear") [])).1 = Raise ValueError
  ∧ (KernelRidgeRegressor.predict X3
       (World (KernelRidgeRegressor.set_K (linear X3 (q 10)) (regressor "linear")) [])).1
    = Raise TypeError
  ∧ (KernelRidgeClassifier.predict X3 (World half_fitted_classifier [])).1
    = Raise ValueError.
Proof.
  destruct (predict_on_half_fitted (R:=Qc)) as [Hreg Hclf].
  destruct (Hreg (regressor "linear") [] X3 [q 1] linear ValueError
              linear_registered eq_refl) as [Hfit Hpred].
  { vm_compute. reflexivity. }
  split; [exact (f_equal fst Hfit)|]. split.
  - exact (f_equal fst (Hpred [] [q 1; q 0; q 0] (tail X3))).
  - assert (HK : KernelRidgeClassifier.K half_fitted_classifier = Some (linear X3 (q 10)))
      by (vm_compute; reflexivity).
    assert (Ha : KernelRidgeClassifier.alpha half_fitted_classifier = Some [])
      by (vm_compute; reflexivity).
    exact (f_equal fst (Hclf half_fitted_classifier [] (linear X3 (q 10))
                          [q 1; q 0; q 0] (tail X3) HK Ha)).
Defined.


Lemma classifier_model_invariant_witness :
  classifier_model_inv (classifier "linear")
  ∧ classifier_model_inv half_fitted_classifier
  ∧ (KernelRidgeClassifier.predict X3 (World half_fitted_classifier [])).1
    ≠ Raise TypeError.
Proof.
  destruct (classifier_model_invariant (R:=Qc)) as (Hinit & Hfit & Hpred).
  assert (H0 : classifier_model_inv (classifier "linear")).
  { exact (Hinit (q 1) "linear" (q 10) _ eq_refl). }
  assert (H1 : classifier_model_inv half_fitted_classifier).
  { exact (Hfit (classifier "linear") [] X3 [3; 4; 5] H0). }
  split; [exact H0|]. split; [exact H1|].
  exact (Hpred half_fitted_classifier [] X3 H1).
Defined.

(** The augmentation doubles [X3]: six feature vectors, diagonal term
    [1 * 6], three coefficient vectors of six entries. *)
Lemma augmented_fit_returns_inv_witness :
  ∃ alphas,
    AugmentedHogsKernelRidgeClassifier.K fitted_augmented
    = Some (linear (X3 ++ X3) (q 10))
    ∧ AugmentedHogsKernelRidgeClassifier.alpha fitted_augmented = Some alphas
    ∧ length alphas = 3%nat.
Proof.
  destruct (augmented_fit_returns_inv (Externals0:=externals) (augmented "linear") []
              X3 [0; 1; 2]
              (AugmentedHogsKernelRidgeClassifier.fit (Externals0:=externals) X3 [0; 1; 2]
                 (World (augmented "linear") [])).2)
    as (ctor & Y & alphas & Hreg & _ & HK & Ha & _ & Hlen & _).
  - apply surjective_pairing_run. vm_compute. reflexivity.
  - exists alphas.
    assert (Hc : Some ctor = Some linear) by (rewrite <- Hreg; exact linear_registered).
    injection Hc as ->.
    split; [exact HK|]. split; [exact Ha|]. exact Hlen.
Defined.
End DemoMoreRuns.
